(** * The document store of exercise 15: query matcher, record log and
    collection handle (src/exercises/exercise-15/database.ts).

    The TypeScript class [Database<T>] is embedded shallowly.  Records are
    JavaScript objects whose field values are scalars; strings are byte
    strings (ASCII text); a finite number is an integer, and [NaN] is kept
    because [===] is not reflexive on it.  The host services the class
    calls but does not define (the JSON codec, the conversion of a string to
    a number) are the fields of the class [JsRuntime]; the file system and
    the lock are state machines written out below. *)

From Stdlib Require Import List String Ascii ZArith Bool Lia Arith.
From Stdlib Require Import Permutation Sorted DecimalString.
Import ListNotations.
Open Scope string_scope.
Open Scope list_scope.
Set Warnings "-register-all".


(** ** Strings as the code uses them *)

Module Str.

(** The characters [String.prototype.trim] removes, within ASCII:
    tab, line feed, vertical tab, form feed, carriage return, space. *)
Definition isWhite (c : ascii) : bool :=
  let n := nat_of_ascii c in
  (((9 <=? n) && (n <=? 13)) || (n =? 32))%nat.

Definition newline : ascii := ascii_of_nat 10.
Definition space : ascii := ascii_of_nat 32.

Definition isEmpty (s : string) : bool :=
  match s with EmptyString => true | String _ _ => false end.

Fixpoint trimStart (s : string) : string :=
  match s with
  | EmptyString => EmptyString
  | String c s' => if isWhite c then trimStart s' else s
  end.

Fixpoint trimEnd (s : string) : string :=
  match s with
  | EmptyString => EmptyString
  | String c s' =>
      let t := trimEnd s' in
      if isWhite c && isEmpty t then EmptyString else String c t
  end.

(** [s.trim()] *)
Definition trim (s : string) : string := trimEnd (trimStart s).

(** [s.split(sep)] for a one-character separator: never the empty list,
    [''.split(sep)] is [['']], and two separators in a row give an empty
    piece. *)
Fixpoint split (sep : ascii) (s : string) : list string :=
  match s with
  | EmptyString => [EmptyString]
  | String c s' =>
      if Ascii.eqb c sep then EmptyString :: split sep s'
      else match split sep s' with
           | h :: t => String c h :: t
           | [] => [String c EmptyString]
           end
  end.

Definition lowerChar (c : ascii) : ascii :=
  let n := nat_of_ascii c in
  if ((65 <=? n) && (n <=? 90))%nat then ascii_of_nat (n + 32) else c.

(** [s.toLowerCase()] on ASCII text *)
Fixpoint toLowerCase (s : string) : string :=
  match s with
  | EmptyString => EmptyString
  | String c s' => String (lowerChar c) (toLowerCase s')
  end.

(** [x[0] === 'E'] : the first character, when there is one *)
Definition startsWith (c : ascii) (s : string) : bool :=
  match s with
  | EmptyString => false
  | String d _ => Ascii.eqb d c
  end.

(** [x.substr(1)] *)
Definition substr1 (s : string) : string :=
  match s with
  | EmptyString => EmptyString
  | String _ s' => s'
  end.

Fixpoint hasChar (c : ascii) (s : string) : bool :=
  match s with
  | EmptyString => false
  | String d s' => Ascii.eqb d c || hasChar c s'
  end.

(** The last character is not white space (false on the empty string). *)
Fixpoint endsBlack (s : string) : bool :=
  match s with
  | EmptyString => false
  | String c EmptyString => negb (isWhite c)
  | String _ s' => endsBlack s'
  end.

(** [list.includes(x)] on strings *)
Definition includes (x : string) (l : list string) : bool :=
  existsb (String.eqb x) l.

End Str.

(** ** Values, records, queries *)

(** A JavaScript number: [NaN], or a finite value (an integer here; the
    code only compares numbers, it never computes with them). *)
Inductive JsNumber : Type :=
| NaN
| Finite (z : Z).

(** The value of a record field, or of an operand of a condition. *)
Inductive Value : Type :=
| VUndefined
| VNull
| VBool (b : bool)
| VNum (n : JsNumber)
| VStr (s : string).

(** A record of the generic type [T]: the own properties of an object, in
    the order [Object.keys] lists them, no key twice. *)
Definition Rec : Type := list (string * Value).

(** [record[key]] : [undefined] when the object has no such property *)
Fixpoint get (record : Rec) (key : string) : Value :=
  match record with
  | [] => VUndefined
  | (k, v) :: rest => if String.eqb k key then v else get rest key
  end.

Definition hasKey (record : Rec) (key : string) : bool :=
  existsb (fun kv => String.eqb (fst kv) key) record.

(** [type Condition<T>]: an object that may carry the keys [$eq], [$gt],
    [$lt], [$in]; [None] is an absent key ([!('$eq' in condition)]). *)
Record Condition : Type := mkCondition {
  c_eq : option Value;
  c_gt : option Value;
  c_lt : option Value;
  c_in : option (list Value)
}.

Definition CondEq (v : Value) : Condition := mkCondition (Some v) None None None.
Definition CondGt (v : Value) : Condition := mkCondition None (Some v) None None.
Definition CondLt (v : Value) : Condition := mkCondition None None (Some v) None.
Definition CondIn (l : list Value) : Condition := mkCondition None None None (Some l).

(** [type PropertyQuery<T>]: the remaining keys of the query object in
    [Object.keys] order; an optional key may hold [undefined] ([None]). *)
Definition PropertyQuery : Type := list (string * option Condition).

(** [type Query<T>]: one object; which of the keys [$and], [$or], [$text]
    it has decides how it is read, every other key is a property
    condition. *)
Inductive Query : Type :=
| mkQuery (q_and : option (list Query)) (q_or : option (list Query))
          (q_text : option string) (q_props : PropertyQuery).

Definition And (qs : list Query) : Query := mkQuery (Some qs) None None [].
Definition Or (qs : list Query) : Query := mkQuery None (Some qs) None [].
Definition Text (s : string) : Query := mkQuery None None (Some s) [].
Definition Props (p : PropertyQuery) : Query := mkQuery None None None p.

(** [type SortOption<T>]: the keys in the order [for (key in sortOption)]
    visits them, each with its direction. *)
Inductive Direction : Type := Asc | Desc.

(** [sortOption[key]] as a number: [1] or [-1] *)
Definition dirZ (d : Direction) : Z :=
  match d with Asc => 1%Z | Desc => (-1)%Z end.

Definition SortOption : Type := list (string * Direction).

(** [type ProjectionOption<T>]: the keys of the object, in [for in] order
    (every key maps to [1]). *)
Definition ProjectionOption : Type := list string.

Record QueryOptions : Type := mkOptions {
  sort_opt : option SortOption;
  projection_opt : option ProjectionOption
}.

(** ** Errors and completions *)

Inductive Errno : Type := ENOENT | EIO.

Inductive Error : Type :=
| IOError (code : Errno)
| TypeError
| SyntaxError
| TooManyPending.

(** The completion of a synchronous computation: a value, or a throw. *)
Inductive Result (A : Type) : Type :=
| Ok (a : A)
| Throw (e : Error).
Arguments Ok {A} a.
Arguments Throw {A} e.

Definition bind {A B} (m : Result A) (f : A -> Result B) : Result B :=
  match m with
  | Ok a => f a
  | Throw e => Throw e
  end.

Notation "x <- m ;; k" := (bind m (fun x => k))
  (at level 61, m at next level, right associativity).

(** [l.map(f)] where [f] may throw: the first throw ends the loop. *)
Fixpoint mapM {A B} (f : A -> Result B) (l : list A) : Result (list B) :=
  match l with
  | [] => Ok []
  | a :: l' => b <- f a ;; bs <- mapM f l' ;; Ok (b :: bs)
  end.

(** [l.every(f)]: stops at the first [false]. *)
Definition every {A} (f : A -> Result bool) : list A -> Result bool :=
  fix go (l : list A) : Result bool :=
    match l with
    | [] => Ok true
    | a :: l' => b <- f a ;; if b then go l' else Ok false
    end.

(** [l.some(f)]: stops at the first [true]. *)
Definition some {A} (f : A -> Result bool) : list A -> Result bool :=
  fix go (l : list A) : Result bool :=
    match l with
    | [] => Ok false
    | a :: l' => b <- f a ;; if b then Ok true else go l'
    end.

(** [l.filter(f)] where [f] may throw *)
Fixpoint filterM {A} (f : A -> Result bool) (l : list A) : Result (list A) :=
  match l with
  | [] => Ok []
  | a :: l' =>
      b <- f a ;; rest <- filterM f l' ;;
      Ok (if b then a :: rest else rest)
  end.

(** ** The host runtime *)

(** What the class takes from the JavaScript runtime and this development
    does not define: the conversion of a string operand of [<] to a number,
    and the JSON codec ([JSON_parse] is [None] where [JSON.parse] throws a
    [SyntaxError]). *)
Class JsRuntime : Type := {
  StringToNumber : string -> JsNumber;
  JSON_parse : string -> option Rec;
  JSON_stringify : Rec -> string
}.

(** ** Operators *)

Definition numEq (a b : JsNumber) : bool :=
  match a, b with
  | Finite x, Finite y => Z.eqb x y
  | _, _ => false
  end.

(** [a === b] *)
Definition strictEq (a b : Value) : bool :=
  match a, b with
  | VUndefined, VUndefined => true
  | VNull, VNull => true
  | VBool x, VBool y => Bool.eqb x y
  | VNum x, VNum y => numEq x y
  | VStr x, VStr y => String.eqb x y
  | _, _ => false
  end.

(** SameValueZero, the comparison of [Array.prototype.includes]: [===]
    except that [NaN] is the same as [NaN]. *)
Definition sameValueZero (a b : Value) : bool :=
  match a, b with
  | VNum NaN, VNum NaN => true
  | _, _ => strictEq a b
  end.

(** [list.includes(v)] *)
Definition includes (l : list Value) (v : Value) : bool :=
  existsb (fun x => sameValueZero x v) l.

Section Operators.
Context `{RT : JsRuntime}.

(** ToNumber on the scalars *)
Definition ToNumber (v : Value) : JsNumber :=
  match v with
  | VUndefined => NaN
  | VNull => Finite 0
  | VBool b => Finite (if b then 1 else 0)
  | VNum n => n
  | VStr s => StringToNumber s
  end.

(** [a < b]: two strings are compared by code units, anything else as
    numbers, and a comparison with [NaN] is false. *)
Definition lessThan (a b : Value) : bool :=
  match a, b with
  | VStr x, VStr y => String.ltb x y
  | _, _ =>
      match ToNumber a, ToNumber b with
      | Finite x, Finite y => Z.ltb x y
      | _, _ => false
      end
  end.

(** [a > b] *)
Definition greaterThan (a b : Value) : bool := lessThan b a.

End Operators.

(** ** The query matcher *)

Section Matcher.
Context `{RT : JsRuntime}.

(** The collection's [fullTextSearchFieldNames]. *)
Variable fullTextSearchFieldNames : list string.

(** [matchesCondition(value, condition)]: [boolean | undefined]; the
    result is [None] ([undefined]) when the condition object has none of
    the four keys. *)
Definition matchesCondition (value : Value) (condition : option Condition)
  : option bool :=
  match condition with
  | None => Some false
  | Some c =>
      match c_eq c with
      | Some x => Some (strictEq value x)
      | None =>
      match c_gt c with
      | Some x => Some (greaterThan value x)
      | None =>
      match c_lt c with
      | Some x => Some (lessThan value x)
      | None =>
      match c_in c with
      | Some l => Some (includes l value)
      | None => None
      end end end end
  end.

(** What [every] makes of a callback result: [undefined] is falsy. *)
Definition truthy (r : option bool) : bool :=
  match r with
  | Some b => b
  | None => false
  end.

(** [getObjectKeys(x)] *)
Definition getObjectKeys {V} (x : list (string * V)) : list string :=
  map fst x.

(** [propertyQuery[key]] *)
Fixpoint getCondition (propertyQuery : PropertyQuery) (key : string)
  : option Condition :=
  match propertyQuery with
  | [] => None
  | (k, c) :: rest => if String.eqb k key then c else getCondition rest key
  end.

(** [matchesPropertyQuery(record, propertyQuery)] *)
Definition matchesPropertyQuery (record : Rec) (propertyQuery : PropertyQuery)
  : bool :=
  forallb
    (fun key => truthy (matchesCondition (get record key)
                                         (getCondition propertyQuery key)))
    (getObjectKeys propertyQuery).

(** [(record[key] as any as string).toLowerCase().split(' ')]: the cast
    checks nothing, so [toLowerCase] throws a [TypeError] on a value that
    is not a string. *)
Definition fieldWords (record : Rec) (key : string) : Result (list string) :=
  match get record key with
  | VStr s => Ok (Str.split Str.space (Str.toLowerCase s))
  | _ => Throw TypeError
  end.

(** The [$text] branch of [matchesQuery]. *)
Definition matchesText (record : Rec) (text : string) : Result bool :=
  searchableFieldWords <- mapM (fieldWords record) fullTextSearchFieldNames ;;
  let wordsToSearch := Str.split Str.space (Str.toLowerCase text) in
  Ok (forallb
        (fun x => existsb (fun y => Str.includes x y) searchableFieldWords)
        wordsToSearch).

(** [matchesQuery(record, query)] *)
Fixpoint matchesQuery (record : Rec) (query : Query) : Result bool :=
  match query with
  | mkQuery q_and q_or q_text q_props =>
      match q_and with
      | Some qs => every (matchesQuery record) qs
      | None =>
      match q_or with
      | Some qs => some (matchesQuery record) qs
      | None =>
      match q_text with
      | Some text => matchesText record text
      | None => Ok (matchesPropertyQuery record q_props)
      end end end
  end.

(** [project(record, projectionOption)] *)
Definition project (record : Rec) (projectionOption : ProjectionOption) : Rec :=
  map (fun key => (key, get record key)) projectionOption.

End Matcher.

(** ** The result shaper *)

Section Shaper.
Context `{RT : JsRuntime}.

(** The comparator [sort] hands to [Array.prototype.sort]. *)
Fixpoint compareRecords (sortOption : SortOption) (a b : Rec) : Z :=
  match sortOption with
  | [] => 0%Z
  | (key, d) :: rest =>
      if lessThan (get a key) (get b key) then (- dirZ d)%Z
      else if greaterThan (get a key) (get b key) then dirZ d
      else compareRecords rest a b
  end.

End Shaper.

(** [Array.prototype.sort(comparefn)]: ECMAScript asks for a stable sort; a
    positive [comparefn(x, y)] puts [y] first.  The reference algorithm
    here is a stable insertion sort.  (When [comparefn] is not a consistent
    comparator the order is the implementation's own.) *)
Fixpoint insertSorted {A} (comparefn : A -> A -> Z) (x : A) (l : list A)
  : list A :=
  match l with
  | [] => [x]
  | y :: l' =>
      if (0 <? comparefn x y)%Z then y :: insertSorted comparefn x l'
      else x :: l
  end.

Fixpoint arraySort {A} (comparefn : A -> A -> Z) (l : list A) : list A :=
  match l with
  | [] => []
  | x :: l' => insertSorted comparefn x (arraySort comparefn l')
  end.

(** [sort(records, sortOption)]: sorts the array in place. *)
Definition sort `{RT : JsRuntime} (records : list Rec) (sortOption : SortOption)
  : list Rec :=
  arraySort (compareRecords sortOption) records.

(** ** The file system *)

Inductive FsCall : Type :=
| ReadFile
| AppendFile (data : string)
| Truncate.

(** The one file of the collection ([None]: it does not exist), the
    failures the storage will inject into the coming calls ([true]: the
    next call fails with [EIO] and changes nothing), and the calls issued
    so far, oldest first. *)
Record World : Type := mkWorld {
  file : option string;
  faults : list bool;
  calls : list FsCall
}.

Definition issue (c : FsCall) (w : World) : bool * World :=
  match faults w with
  | [] => (false, mkWorld (file w) [] (calls w ++ [c]))
  | b :: rest => (b, mkWorld (file w) rest (calls w ++ [c]))
  end.

Definition setFile (w : World) (f : option string) : World :=
  mkWorld f (faults w) (calls w).

(** [fs.readFile(filename, {encoding: 'utf8'}, callback)]: what the
    callback receives. *)
Definition fs_readFile (w : World) : World * (Errno + string) :=
  let (failed, w1) := issue ReadFile w in
  if failed then (w1, inl EIO)
  else match file w1 with
       | None => (w1, inl ENOENT)
       | Some data => (w1, inr data)
       end.

(** [fs.appendFile(filename, data, ...)]: creates the file if need be. *)
Definition fs_appendFile (w : World) (data : string) : World * option Errno :=
  let (failed, w1) := issue (AppendFile data) w in
  if failed then (w1, Some EIO)
  else match file w1 with
       | None => (setFile w1 (Some data), None)
       | Some old => (setFile w1 (Some (old ++ data)%string), None)
       end.

(** [fs.truncate(filename, 0, callback)] *)
Definition fs_truncate (w : World) : World * option Errno :=
  let (failed, w1) := issue Truncate w in
  if failed then (w1, Some EIO)
  else match file w1 with
       | None => (w1, Some ENOENT)
       | Some _ => (setFile w1 (Some EmptyString), None)
       end.

(** ** Promises and the lock *)

(** How a promise ends: resolved, rejected, or never settled because an
    exception escaped from a callback of the operation (an uncaught
    exception of the host), or because the lock is never granted. *)
Inductive Outcome (A : Type) : Type :=
| Resolved (a : A)
| Rejected (e : Error)
| Uncaught (e : Error)
| Blocked.
Arguments Resolved {A} a.
Arguments Rejected {A} e.
Arguments Uncaught {A} e.
Arguments Blocked {A}.

(** What the three operations resolve to. *)
Inductive Answer : Type :=
| Records (records : list Rec)
| Done.

(** A function waiting for, or holding, the lock ([lockKey] is the only
    key): the body of [find], of [insert] or of [delete]; [TAppending] is
    the body of an [insert] that holds the lock and has called
    [fs.appendFile] with [data], the call not yet completed. *)
Inductive Task : Type :=
| TFind (query : Query) (options : option QueryOptions)
| TInsert (record : Rec) (asDeleted : bool)
| TDelete (query : Query)
| TAppending (data : string).

(** [new AsyncLock()] is built without options: the lock keeps at most
    [DEFAULT_MAX_PENDING] functions waiting and rejects a further
    [acquire] with the error [Too many pending tasks in queue]. *)
Definition maxPending : nat := 1000.
Arguments maxPending : simpl never.

(** A call to the file system that has been made and has not completed:
    it is on record, the file is as it was. *)
Definition recordCall (c : FsCall) (w : World) : World :=
  mkWorld (file w) (faults w) (calls w ++ [c]).

(** The completion of an [fs.appendFile] already on record: the storage
    fails it or appends the data. *)
Definition completeAppend (w : World) (data : string) : World :=
  let append rest :=
    match file w with
    | None => mkWorld (Some data) rest (calls w)
    | Some old => mkWorld (Some (old ++ data)%string) rest (calls w)
    end in
  match faults w with
  | [] => append []
  | true :: rest => mkWorld (file w) rest (calls w)
  | false :: rest => append rest
  end.

Section Database.
Context `{RT : JsRuntime}.
Variable fullTextSearchFieldNames : list string.

Definition liveTag : ascii := "E"%char.
Definition deadTag : ascii := "D"%char.

(** The lines [getRecords] hands to [JSON.parse]:
    [data.trim().split('\n').filter(x => x[0] === 'E').map(x => x.substr(1))] *)
Definition liveLines (data : string) : list string :=
  map Str.substr1
      (filter (Str.startsWith liveTag) (Str.split Str.newline (Str.trim data))).

(** [.map(x => JSON.parse(x) as T)]: the first line that does not parse
    throws. *)
Definition parseLine (x : string) : Result Rec :=
  match JSON_parse x with
  | Some r => Ok r
  | None => Throw SyntaxError
  end.

(** [getRecords()]: a read error rejects the promise; the decoding runs in
    the callback of [fs.readFile], outside the promise executor, so a throw
    there settles nothing. *)
Definition getRecords (w : World) : World * Outcome (list Rec) :=
  match fs_readFile w with
  | (w1, inl code) => (w1, Rejected (IOError code))
  | (w1, inr data) =>
      match mapM parseLine (liveLines data) with
      | Ok records => (w1, Resolved records)
      | Throw e => (w1, Uncaught e)
      end
  end.

(** The line [insert] appends: [`${symbol}${JSON.stringify(record)}\n`] *)
Definition logLine (record : Rec) (asDeleted : bool) : string :=
  String (if asDeleted then deadTag else liveTag)
         (JSON_stringify record ++ String Str.newline EmptyString)%string.

(** The objects [getRecords] returns are told apart by identity: each is
    paired with its index in the array. *)
Definition withIdentity (records : list Rec) : list (nat * Rec) :=
  combine (seq 0 (List.length records)) records.

(** [recordsToDelete.includes(r)] on object references *)
Definition includesRef (l : list (nat * Rec)) (r : nat * Rec) : bool :=
  existsb (fun x => Nat.eqb (fst x) (fst r)) l.

(** [l.filter(x => this.matchesQuery(x, query))] on identified records *)
Definition filterMatching (query : Query) (l : list (nat * Rec))
  : Result (list (nat * Rec)) :=
  filterM (fun x => matchesQuery fullTextSearchFieldNames (snd x) query) l.

(** The function [find] runs under the lock. *)
Definition findBody (query : Query) (options : option QueryOptions) (w : World)
  : World * Outcome Answer :=
  match getRecords w with
  | (w1, Resolved records) =>
      match filterM (fun x => matchesQuery fullTextSearchFieldNames x query)
                    records with
      | Throw e => (w1, Rejected e)
      | Ok records =>
          let records :=
            match options with
            | Some (mkOptions (Some sortOption) _) => sort records sortOption
            | _ => records
            end in
          match options with
          | Some (mkOptions _ (Some projection)) =>
              (w1, Resolved (Records (map (fun x => project x projection)
                                          records)))
          | _ => (w1, Resolved (Records records))
          end
      end
  | (w1, Rejected e) => (w1, Rejected e)
  | (w1, Uncaught e) => (w1, Uncaught e)
  | (w1, Blocked) => (w1, Blocked)
  end.

(** The function [insert] runs under the lock: the callback of
    [fs.appendFile] is [() => resolve()], whatever it is called with. *)
Definition insertBody (record : Rec) (asDeleted : bool) (w : World)
  : World * Outcome Answer :=
  let (w1, _) := fs_appendFile w (logLine record asDeleted) in
  (w1, Resolved Done).

(** The function [delete] runs under the lock.  Its last statement calls
    [this.insert] once per record without awaiting it, and [insert] asks
    for the lock, which [delete] still holds: the result lists these
    requests in the order they are made. *)
Definition deleteBody (query : Query) (w : World)
  : World * Outcome Answer * list Task :=
  match getRecords w with
  | (w1, Resolved records) =>
      let records := withIdentity records in
      match filterMatching query records with
      | Throw e => (w1, Rejected e, [])
      | Ok recordsToDelete =>
          let (w2, _) := fs_truncate w1 in
          (w2, Resolved Done,
           map (fun r => TInsert (snd r) (includesRef recordsToDelete r))
               records)
      end
  | (w1, Rejected e) => (w1, Rejected e, [])
  | (w1, Uncaught e) => (w1, Uncaught e, [])
  | (w1, Blocked) => (w1, Blocked, [])
  end.

(** One task, from the moment it gets the lock to the moment it lets go:
    the new world, the outcome, and the requests for the lock it made
    meanwhile. *)
Definition runTask (t : Task) (w : World) : World * Outcome Answer * list Task :=
  match t with
  | TFind query options => (findBody query options w, [])
  | TInsert record asDeleted => (insertBody record asDeleted w, [])
  | TDelete query => deleteBody query w
  | TAppending data => (completeAppend w data, Resolved Done, [])
  end.

(** The collection between two turns of the caller: the world, the users
    of the lock in the order they asked for it, and whether the lock is held
    by a task that will never return it.  When [stuck] is false the head of
    [queue], if any, holds the lock and its first call to the file system
    has been made; the others wait.  When [stuck] is true all of [queue]
    wait. *)
Record Sys : Type := mkSys {
  world : World;
  queue : list Task;
  stuck : bool
}.

(** The calls [lock.acquire] made by the holder of the lock, one after the
    other: each is queued behind the functions waiting, unless [maxPending]
    of them wait already; then it is rejected, and as nobody awaits the
    [insert] that made it, the request is lost. *)
Fixpoint acquireAll (waiting : list Task) (requests : list Task) : list Task :=
  match requests with
  | [] => waiting
  | t :: rest =>
      if (maxPending <=? List.length waiting)%nat then acquireAll waiting rest
      else acquireAll (waiting ++ [t]) rest
  end.

(** The lock passes to the head of the queue in the turn in which its
    holder is done: the function starts at once, and an [insert] makes its
    call to [fs.appendFile] before the caller resumes.  (Only the inserts
    of a [delete] are ever left waiting when a caller resumes.) *)
Definition handOver (w : World) (q : list Task) : Sys :=
  match q with
  | TInsert record asDeleted :: rest =>
      mkSys (recordCall (AppendFile (logLine record asDeleted)) w)
            (TAppending (logLine record asDeleted) :: rest) false
  | _ => mkSys w q false
  end.

(** The first [k] users of the lock run, each to completion; what they
    ask of the lock meanwhile queues up at the end.  The result tells
    whether one of them never returned the lock. *)
Fixpoint advance (k : nat) (q : list Task) (w : World)
  : World * list Task * bool :=
  match k, q with
  | S k', h :: waiting =>
      match runTask h w with
      | (w1, Uncaught _, spawned) => (w1, acquireAll waiting spawned, true)
      | (w1, _, spawned) => advance k' (acquireAll waiting spawned) w1
      end
  | _, _ => (w, q, false)
  end.

(** The task [t] gets the lock, with [behind] waiting behind it. *)
Definition exec (t : Task) (behind : list Task) (w : World)
  : Sys * Outcome Answer :=
  match runTask t w with
  | (w1, Uncaught e, spawned) =>
      (mkSys w1 (acquireAll behind spawned) true, Uncaught e)
  | (w1, out, spawned) => (handOver w1 (acquireAll behind spawned), out)
  end.

(** [await this.lock.acquire(this.lockKey, t)] by a caller that does
    nothing else until the promise settles: on a free lock [t] runs at
    once; otherwise it is queued, unless [maxPending] functions wait
    already, and runs when all the users before it are done. *)
Definition await (t : Task) (s : Sys) : Sys * Outcome Answer :=
  if stuck s then
    if (maxPending <=? List.length (queue s))%nat
    then (s, Rejected TooManyPending)
    else (mkSys (world s) (queue s ++ [t]) true, Blocked)
  else
    match queue s with
    | [] => exec t [] (world s)
    | _ :: waiting =>
        if (maxPending <=? List.length waiting)%nat
        then (s, Rejected TooManyPending)
        else
          match advance (List.length (queue s)) (queue s ++ [t]) (world s) with
          | (w1, q1, true) => (mkSys w1 q1 true, Blocked)
          | (w1, q1, false) => exec t (tl q1) w1
          end
    end.

Definition find (query : Query) (options : option QueryOptions) :=
  await (TFind query options).
Definition insert (record : Rec) (asDeleted : bool) :=
  await (TInsert record asDeleted).
Definition delete (query : Query) := await (TDelete query).

(** A collection nobody is using. *)
Definition idle (w : World) : Sys := mkSys w [] false.

(** The users of the lock left after the caller's last call run when the
    caller yields; [n] bounds how many are run. *)
Fixpoint settle (n : nat) (s : Sys) : Sys :=
  match n with
  | O => s
  | S n' =>
      if stuck s then s
      else match queue s with
           | [] => s
           | t :: waiting =>
               match runTask t (world s) with
               | (w1, Uncaught _, spawned) =>
                   mkSys w1 (acquireAll waiting spawned) true
               | (w1, _, spawned) =>
                   settle n' (handOver w1 (acquireAll waiting spawned))
               end
           end
  end.

End Database.

(** ** A small runtime to evaluate the model

    [miniRuntime] is an instance of [JsRuntime] that covers what the
    examples need: JSON objects whose members are strings (with the
    escapes of a quote, a backslash and a line feed), integers, [true],
    [false] and [null]; decimal integers as numeric strings. *)

Module Mini.

Definition quote : ascii := ascii_of_nat 34.
Definition backslash : ascii := ascii_of_nat 92.

Definition isDigit (c : ascii) : bool :=
  let n := nat_of_ascii c in ((48 <=? n) && (n <=? 57))%nat.

Fixpoint allDigits (s : string) : bool :=
  match s with
  | EmptyString => true
  | String c s' => isDigit c && allDigits s'
  end.

(** An optional minus sign and at least one digit. *)
Definition readInt (s : string) : option Z :=
  let digits := match s with
                | String "-"%char s' => s'
                | _ => s
                end in
  if Str.isEmpty digits || negb (allDigits digits) then None
  else option_map Z.of_int (DecimalString.NilZero.int_of_string s).

Definition showInt (z : Z) : string :=
  DecimalString.NilZero.string_of_int (Z.to_int z).

Definition stringToNumber (s : string) : JsNumber :=
  let t := Str.trim s in
  if Str.isEmpty t then Finite 0
  else match readInt t with
       | Some z => Finite z
       | None => NaN
       end.

Fixpoint escape (s : string) : string :=
  match s with
  | EmptyString => EmptyString
  | String c s' =>
      if Ascii.eqb c quote || Ascii.eqb c backslash
      then String backslash (String c (escape s'))
      else if Ascii.eqb c Str.newline
      then String backslash (String "n"%char (escape s'))
      else String c (escape s')
  end.

Definition showString (s : string) : string :=
  String quote (escape s ++ String quote EmptyString)%string.

(** [undefined] members are left out, [NaN] is written [null]. *)
Definition showValue (v : Value) : option string :=
  match v with
  | VUndefined => None
  | VNull => Some "null"
  | VBool true => Some "true"
  | VBool false => Some "false"
  | VNum NaN => Some "null"
  | VNum (Finite z) => Some (showInt z)
  | VStr s => Some (showString s)
  end.

Fixpoint showMembers (record : Rec) : list string :=
  match record with
  | [] => []
  | (k, v) :: rest =>
      match showValue v with
      | Some t => (showString k ++ ":" ++ t)%string :: showMembers rest
      | None => showMembers rest
      end
  end.

Definition stringify (record : Rec) : string :=
  ("{" ++ String.concat "," (showMembers record) ++ "}")%string.

(** The text after an opening quote: the string and what follows its
    closing quote. *)
Fixpoint readString (s : string) : option (string * string) :=
  match s with
  | EmptyString => None
  | String c s' =>
      if Ascii.eqb c quote then Some (EmptyString, s')
      else if Ascii.eqb c backslash then
        match s' with
        | EmptyString => None
        | String d s'' =>
            let ch := if Ascii.eqb d "n"%char then Some Str.newline
                      else if Ascii.eqb d quote || Ascii.eqb d backslash
                      then Some d else None in
            match ch, readString s'' with
            | Some x, Some (body, rest) => Some (String x body, rest)
            | _, _ => None
            end
        end
      else if Ascii.eqb c Str.newline then None
      else match readString s' with
           | Some (body, rest) => Some (String c body, rest)
           | None => None
           end
  end.

(** The longest prefix of characters of a number, and the rest. *)
Fixpoint spanNumber (s : string) : string * string :=
  match s with
  | EmptyString => (EmptyString, EmptyString)
  | String c s' =>
      if isDigit c || Ascii.eqb c "-"%char then
        let (a, b) := spanNumber s' in (String c a, b)
      else (EmptyString, s)
  end.

Definition dropPrefix (p s : string) : option string :=
  if String.prefix p s
  then Some (String.substring (String.length p)
                              (String.length s - String.length p) s)
  else None.

Definition readValue (s : string) : option (Value * string) :=
  match s with
  | String c s' =>
      if Ascii.eqb c quote then
        match readString s' with
        | Some (body, rest) => Some (VStr body, rest)
        | None => None
        end
      else if isDigit c || Ascii.eqb c "-"%char then
        let (a, b) := spanNumber s in
        match readInt a with
        | Some z => Some (VNum (Finite z), b)
        | None => None
        end
      else
        match dropPrefix "true" s, dropPrefix "false" s, dropPrefix "null" s with
        | Some rest, _, _ => Some (VBool true, rest)
        | _, Some rest, _ => Some (VBool false, rest)
        | _, _, Some rest => Some (VNull, rest)
        | _, _, _ => None
        end
  | EmptyString => None
  end.

(** A later member replaces an earlier one of the same name. *)
Fixpoint setField (record : Rec) (k : string) (v : Value) : Rec :=
  match record with
  | [] => [(k, v)]
  | (k', v') :: rest =>
      if String.eqb k' k then (k, v) :: rest else (k', v') :: setField rest k v
  end.

(** The members after the opening brace, up to the closing one. *)
Fixpoint readMembers (fuel : nat) (acc : Rec) (s : string)
  : option (Rec * string) :=
  match fuel with
  | O => None
  | S fuel' =>
      match Str.trimStart s with
      | String c s1 =>
          if Ascii.eqb c quote then
            match readString s1 with
            | Some (k, s2) =>
                match Str.trimStart s2 with
                | String ":"%char s3 =>
                    match readValue (Str.trimStart s3) with
                    | Some (v, s4) =>
                        match Str.trimStart s4 with
                        | String ","%char s5 =>
                            readMembers fuel' (setField acc k v) s5
                        | String "}"%char s5 => Some (setField acc k v, s5)
                        | _ => None
                        end
                    | None => None
                    end
                | _ => None
                end
            | None => None
            end
          else None
      | EmptyString => None
      end
  end.

Definition parse (s : string) : option Rec :=
  match Str.trimStart s with
  | String "{"%char s1 =>
      match Str.trimStart s1 with
      | String "}"%char s2 =>
          if Str.isEmpty (Str.trimStart s2) then Some [] else None
      | _ =>
          match readMembers (String.length s) [] s1 with
          | Some (r, s2) =>
              if Str.isEmpty (Str.trimStart s2) then Some r else None
          | None => None
          end
      end
  | _ => None
  end.

End Mini.

Definition miniRuntime : JsRuntime :=
  {| StringToNumber := Mini.stringToNumber;
     JSON_parse := Mini.parse;
     JSON_stringify := Mini.stringify |}.

(** ** Properties the statements below speak of *)

(** The configured full-text fields of the record hold strings (what the
    type [KeysMatching<T, string>] promises of a [T]). *)
Definition isString (v : Value) : bool :=
  match v with VStr _ => true | _ => false end.

Definition textFieldsAreStrings (fields : list string) (record : Rec) : bool :=
  forallb (fun key => isString (get record key)) fields.

(** The string a full-text field holds. *)
Definition stringOf (v : Value) : string :=
  match v with VStr s => s | _ => EmptyString end.

(** The tokens of [s.toLowerCase().split(' ')] *)
Definition spaceTokens (s : string) : list string :=
  Str.split Str.space (Str.toLowerCase s).

(** Splitting at every white-space character. *)
Fixpoint splitWhite (s : string) : list string :=
  match s with
  | EmptyString => [EmptyString]
  | String c s' =>
      if Str.isWhite c then EmptyString :: splitWhite s'
      else match splitWhite s' with
           | h :: t => String c h :: t
           | [] => [String c EmptyString]
           end
  end.

(** The white-space-delimited, lower-cased tokens of a string: its maximal
    runs of characters that are not white space. *)
Definition whitespaceTokens (s : string) : list string :=
  filter (fun t => negb (Str.isEmpty t)) (splitWhite (Str.toLowerCase s)).

(** Every token of [tokens] is a token of the value of at least one of the
    fields. *)
Definition tokensCovered (fields : list string) (record : Rec)
  (tokens : list string) : bool :=
  forallb
    (fun x => existsb
                (fun key => Str.includes x (spaceTokens (stringOf (get record key))))
                fields)
    tokens.


(** ** The format of the log *)

Definition startsBlack (s : string) : bool :=
  match s with
  | EmptyString => false
  | String c _ => negb (Str.isWhite c)
  end.

(** A line of a log in the format of the store: no line feed inside, and
    neither its first nor its last character is white space. *)
Definition cleanLine (l : string) : bool :=
  negb (Str.hasChar Str.newline l) && startsBlack l && Str.endsBlack l.

(** The file made of the given lines, each closed by a line feed. *)
Fixpoint fileOfLines (ls : list string) : string :=
  match ls with
  | [] => EmptyString
  | l :: rest => (l ++ String Str.newline (fileOfLines rest))%string
  end.

(** The JSON codec is faithful on [r]: the text [JSON.stringify] writes
    has no raw line feed, does not end in white space, and parses back to
    [r]. *)
Definition faithful `{RT : JsRuntime} (r : Rec) : Prop :=
  Str.hasChar Str.newline (JSON_stringify r) = false /\
  Str.endsBlack (JSON_stringify r) = true /\
  JSON_parse (JSON_stringify r) = Some r.

(** ** What a sort option asks for *)

(** Two values the operator [<] orders totally: finite numbers, or
    strings. *)
Definition sameKind (u v : Value) : bool :=
  match u, v with
  | VNum (Finite _), VNum (Finite _) => true
  | VStr _, VStr _ => true
  | _, _ => false
  end.

(** On every key of the sort option the two records hold values of the
    same kind. *)
Definition comparable (sortOption : SortOption) (a b : Rec) : bool :=
  forallb (fun kd => sameKind (get a (fst kd)) (get b (fst kd))) sortOption.

Section SortSpec.
Context `{RT : JsRuntime}.

(** [a] goes before [b]: on the first key of the sort option where the
    two records differ, [a] holds the smaller value if the key is ascending,
    the greater if it is descending. *)
Fixpoint precedes (sortOption : SortOption) (a b : Rec) : bool :=
  match sortOption with
  | [] => false
  | (key, d) :: rest =>
      if strictEq (get a key) (get b key) then precedes rest a b
      else match d with
           | Asc => lessThan (get a key) (get b key)
           | Desc => greaterThan (get a key) (get b key)
           end
  end.

(** The two records are equal on all the keys of the sort option. *)
Definition equalOnKeys (sortOption : SortOption) (a b : Rec) : bool :=
  forallb (fun kd => strictEq (get a (fst kd)) (get b (fst kd))) sortOption.

(** The outcome of the two tests [sort] makes on a key. *)
Definition valueCompare (u v : Value) : comparison :=
  if lessThan u v then Lt else if greaterThan u v then Gt else Eq.

End SortSpec.

(** Equality of records is decidable. *)
Definition Value_eq_dec (a b : Value) : {a = b} + {a <> b}.
Proof.
  decide equality;
    [apply bool_dec | decide equality; apply Z.eq_dec | apply string_dec].
Defined.

Definition Rec_eq_dec (a b : Rec) : {a = b} + {a <> b}.
Proof.
  apply list_eq_dec. intros [k v] [k' v'].
  destruct (string_dec k k') as [->|Hk]; [|right; congruence].
  destruct (Value_eq_dec v v') as [->|Hv]; [left; reflexivity|right; congruence].
Defined.

(** How many times [record] occurs in [records]. *)
Definition occurrences (record : Rec) (records : list Rec) : nat :=
  count_occ Rec_eq_dec records record.

(** ** Sample data *)

Definition ann : Rec := [("name", VStr "Ann"); ("age", VNum (Finite 30))].
Definition bob : Rec := [("name", VStr "Bob"); ("age", VNum (Finite 25))].

(** The log that holds the given records, each live ([false]) or deleted
    ([true]), as [insert] writes them. *)
Fixpoint logOf `{RT : JsRuntime} (entries : list (Rec * bool)) : string :=
  match entries with
  | [] => EmptyString
  | e :: rest => (logLine (fst e) (snd e) ++ logOf rest)%string
  end.

(** A world where the file holds [data], no failure is due and no call
    has been made. *)
Definition quietWorld (data : string) : World := mkWorld (Some data) [] [].

(** The log of the scenario: Ann and Bob, both live. *)
Definition annBobWorld : World :=
  quietWorld (logOf (RT := miniRuntime) [(ann, false); (bob, false)]).

(** [{name: {$eq: "Bob"}}] *)
Definition isBob : Query := Props [("name", Some (CondEq (VStr "Bob")))].

(** A log with one live record more than the lock lets wait: [maxPending]
    times the record [{}] ([blank]), then Ann. *)
Definition blank : Rec := [].

Definition crowd : list (Rec * bool) :=
  repeat (blank, false) maxPending ++ [(ann, false)].

Definition crowdedWorld : World := quietWorld (logOf (RT := miniRuntime) crowd).

(** A log whose second live line is not JSON. *)
Definition corruptLog : string :=
  (logOf (RT := miniRuntime) [(ann, false)]
   ++ "E{oops" ++ String Str.newline EmptyString)%string.


(** ** Auxiliary definitions of the proofs *)

Definition optList {A} (o : option (list A)) : list A :=
  match o with Some l => l | None => [] end.

Section QueryInduction.
Variable P : Query -> Prop.
Hypothesis step : forall q_and q_or q_text q_props,
  Forall P (optList q_and) -> Forall P (optList q_or) ->
  P (mkQuery q_and q_or q_text q_props).

Fixpoint Query_nested_ind (q : Query) : P q :=
  match q with
  | mkQuery q_and q_or q_text q_props =>
      let all :=
        fix all (l : list Query) : Forall P l :=
          match l with
          | [] => Forall_nil P
          | x :: l' => Forall_cons x (Query_nested_ind x) (all l')
          end in
      step q_and q_or q_text q_props
        (match q_and as o return Forall P (optList o) with
         | Some qs => all qs
         | None => Forall_nil P
         end)
        (match q_or as o return Forall P (optList o) with
         | Some qs => all qs
         | None => Forall_nil P
         end)
  end.
End QueryInduction.

(** The lines joined by line feeds, without the closing one. *)
Fixpoint joinLines (ls : list string) : string :=
  match ls with
  | [] => EmptyString
  | [l] => l
  | l :: rest => (l ++ String Str.newline (joinLines rest))%string
  end.

(** A callback result that is [true]. *)
Definition isTrue (r : Result bool) : bool :=
  match r with Ok true => true | _ => false end.

(** [x] is not placed after [y] by the comparator. *)
Definition notAfter {A} (comparefn : A -> A -> Z) (a b : A) : Prop :=
  (comparefn a b <= 0)%Z.

(** On two values of the same kind the tests of [sort] read off the order
    of the integers, or of the strings. *)
Definition kindCompare (u v : Value) : comparison :=
  match u, v with
  | VNum (Finite x), VNum (Finite y) => Z.compare x y
  | VStr x, VStr y => String.compare x y
  | _, _ => Eq
  end.

Section LogEntries.
Context `{RT : JsRuntime}.
Variable fields : list string.

(** The line of an entry, without its line feed. *)
Definition entryLine (e : Rec * bool) : string :=
  String (if snd e then deadTag else liveTag) (JSON_stringify (fst e)).

(** The records of the live entries. *)
Definition liveRecords (entries : list (Rec * bool)) : list Rec :=
  map fst (filter (fun e => negb (snd e)) entries).

(** The request [delete] queues for an entry. *)
Definition reinsert (e : Rec * bool) : Task := TInsert (fst e) (snd e).

(** Each record with whether the query matched it. *)
Definition verdicts (query : Query) (records : list Rec) : list (Rec * bool) :=
  map (fun r => (r, isTrue (matchesQuery fields r query))) records.

(** The world after the queued appends of the entries have run. *)
Definition appendEntries (w : World) (entries : list (Rec * bool)) : World :=
  fold_left (fun w e => fst (insertBody (fst e) (snd e) w)) entries w.

End LogEntries.

(** ** The read-only variant (src/exercises/exercise-13/database.ts)

    Its matcher and its [getRecords] are, line for line, those of
    exercise 15; its [find] takes no options and no lock. *)

Module Exercise13.
Section Database.
Context `{RT : JsRuntime}.
Variable fullTextSearchFieldNames : list string.

(** [find(query)]: [await this.getRecords()], then the filter. *)
Definition find (query : Query) (w : World) : World * Outcome (list Rec) :=
  match getRecords w with
  | (w1, Resolved records) =>
      match filterM (fun x => matchesQuery fullTextSearchFieldNames x query)
                    records with
      | Ok found => (w1, Resolved found)
      | Throw e => (w1, Rejected e)
      end
  | (w1, Rejected e) => (w1, Rejected e)
  | (w1, Uncaught e) => (w1, Uncaught e)
  | (w1, Blocked) => (w1, Blocked)
  end.

End Database.
End Exercise13.

(** ** Further notions *)

(** The condition object [{}]. *)
Definition emptyCondition : Condition := mkCondition None None None None.

(** A function applied to the records an operation resolves to. *)
Definition onRecords (f : list Rec -> list Rec) (o : Outcome Answer)
  : Outcome Answer :=
  match o with
  | Resolved (Records records) => Resolved (Records (f records))
  | _ => o
  end.

(** The records an operation resolved to, wrapped as [find] of exercise 15
    wraps them. *)
Definition asAnswer (o : Outcome (list Rec)) : Outcome Answer :=
  match o with
  | Resolved records => Resolved (Records records)
  | Rejected e => Rejected e
  | Uncaught e => Uncaught e
  | Blocked => Blocked
  end.

(** [await insert(r, d)] for each entry in turn. *)
Definition insertAll `{RT : JsRuntime} (fields : list string)
  (entries : list (Rec * bool)) (s : Sys) : Sys :=
  fold_left (fun s e => fst (insert fields (fst e) (snd e) s)) entries s.

(** What the options of [find] do to the records it found: the sort, then
    the projection. *)
Definition shape `{RT : JsRuntime} (options : option QueryOptions)
  (records : list Rec) : list Rec :=
  let sorted :=
    match options with
    | Some (mkOptions (Some sortOption) _) => sort records sortOption
    | _ => records
    end in
  match options with
  | Some (mkOptions _ (Some projection)) =>
      map (fun x => project x projection) sorted
  | _ => sorted
  end.

(** ** The keys of an object as [for (key in object)] visits them *)

Definition isDecimalDigit (c : ascii) : bool :=
  let n := nat_of_ascii c in ((48 <=? n) && (n <=? 57))%nat.

Fixpoint digitsValue (acc : Z) (s : string) : option Z :=
  match s with
  | EmptyString => Some acc
  | String c s' =>
      if isDecimalDigit c
      then digitsValue (acc * 10 + Z.of_nat (nat_of_ascii c - 48)) s'
      else None
  end.

(** The key is an array index: the canonical decimal writing of an integer
    from 0 to 2^32 - 2. *)
Definition arrayIndex (key : string) : option Z :=
  match key with
  | EmptyString => None
  | String "0" EmptyString => Some 0%Z
  | String "0" _ => None
  | _ =>
      match digitsValue 0 key with
      | Some z => if (z <=? 4294967294)%Z then Some z else None
      | None => None
      end
  end.

Definition isIndexKey {V} (kv : string * V) : bool :=
  match arrayIndex (fst kv) with Some _ => true | None => false end.

Definition indexOf {V} (kv : string * V) : Z :=
  match arrayIndex (fst kv) with Some z => z | None => 0%Z end.

(** The properties of an object written with the given keys in the given
    order, as [for in] enumerates them: the array indices first, in
    ascending numeric order, then the other keys in the order they were
    added. *)
Definition forInOrder {V} (written : list (string * V)) : list (string * V) :=
  arraySort (fun a b => (indexOf a - indexOf b)%Z) (filter isIndexKey written)
  ++ filter (fun kv => negb (isIndexKey kv)) written.

(** * Theorems *)

(** ** The lock of a collection nobody is using *)

Lemma acquireAll_nil (waiting : list Task) : acquireAll waiting [] = waiting.
Proof. reflexivity. Qed.

Lemma acquireAll_firstn (waiting requests : list Task) :
  acquireAll waiting requests
  = waiting ++ firstn (maxPending - List.length waiting) requests.
Proof.
  revert waiting. induction requests as [|t rest IH]; intros waiting.
  - cbn [acquireAll]. now rewrite firstn_nil, app_nil_r.
  - cbn [acquireAll]. destruct (maxPending <=? List.length waiting)%nat eqn:E.
    + apply Nat.leb_le in E. rewrite IH.
      replace (maxPending - List.length waiting)%nat with 0%nat by lia.
      reflexivity.
    + apply Nat.leb_gt in E. rewrite IH, length_app. cbn [List.length].
      replace (maxPending - List.length waiting)%nat
        with (S (maxPending - (List.length waiting + 1)))%nat by lia.
      cbn [firstn]. now rewrite <- app_assoc.
Qed.

Lemma fits (n : nat) : (n <=? maxPending)%nat = true -> (n <= maxPending)%nat.
Proof. apply Nat.leb_le. Qed.

Section IdleLock.
Context `{RT : JsRuntime}.
Variable fields : list string.

Lemma find_idle_eq (query : Query) (options : option QueryOptions) (w : World) :
  find fields query options (idle w)
  = let (w1, out) := findBody fields query options w in
    match out with
    | Uncaught e => (mkSys w1 [] true, Uncaught e)
    | _ => (mkSys w1 [] false, out)
    end.
Proof.
  unfold find, await, idle, exec. cbn [stuck queue world runTask].
  destruct (findBody fields query options w) as [w1 [a|e|e|]]; reflexivity.
Qed.

Lemma insert_idle_eq (record : Rec) (asDeleted : bool) (w : World) :
  insert fields record asDeleted (idle w)
  = let (w1, out) := insertBody record asDeleted w in
    match out with
    | Uncaught e => (mkSys w1 [] true, Uncaught e)
    | _ => (mkSys w1 [] false, out)
    end.
Proof.
  unfold insert, await, idle, exec. cbn [stuck queue world runTask].
  destruct (insertBody record asDeleted w) as [w1 [a|e|e|]]; reflexivity.
Qed.

Lemma delete_idle_eq (query : Query) (w : World) :
  delete fields query (idle w)
  = let '(w1, out, spawned) := deleteBody fields query w in
    match out with
    | Uncaught e => (mkSys w1 (acquireAll [] spawned) true, Uncaught e)
    | _ => (handOver w1 (acquireAll [] spawned), out)
    end.
Proof.
  unfold delete, await, idle, exec. cbn [stuck queue world runTask].
  destruct (deleteBody fields query w) as [[w1 [a|e|e|]] spawned]; reflexivity.
Qed.

End IdleLock.

(** ** Equality conditions *)



Section EqualityConditions.
Context `{RT : JsRuntime}.
Variable fields : list string.



End EqualityConditions.



(** ** The query matcher *)

Lemma every_true_iff {A} (f : A -> Result bool) (l : list A) :
  every f l = Ok true <-> forall a, In a l -> f a = Ok true.
Proof.
  induction l as [|a l IH]; simpl.
  - split; [intros _ x []|reflexivity].
  - destruct (f a) as [[|]|e] eqn:E; simpl.
    + rewrite IH. split.
      * intros H x [<-|Hx]; auto.
      * intros H x Hx. apply H. now right.
    + split; [discriminate|]. intros H.
      specialize (H a (or_introl eq_refl)). congruence.
    + split; [discriminate|]. intros H.
      specialize (H a (or_introl eq_refl)). congruence.
Qed.

Lemma every_total {A} (f : A -> Result bool) (l : list A) :
  Forall (fun a => exists b, f a = Ok b) l -> exists b, every f l = Ok b.
Proof.
  induction 1 as [|a l [b Hb] _ IH]; simpl; [now exists true|].
  rewrite Hb. simpl. destruct b; [exact IH|now exists false].
Qed.

Lemma some_total {A} (f : A -> Result bool) (l : list A) :
  Forall (fun a => exists b, f a = Ok b) l -> exists b, some f l = Ok b.
Proof.
  induction 1 as [|a l [b Hb] _ IH]; simpl; [now exists false|].
  rewrite Hb. simpl. destruct b; [now exists true|exact IH].
Qed.

Lemma some_true_iff {A} (f : A -> Result bool) (l : list A) :
  Forall (fun a => exists b, f a = Ok b) l ->
  (some f l = Ok true <-> exists a, In a l /\ f a = Ok true).
Proof.
  induction 1 as [|a l [b Hb] _ IH]; simpl.
  - split; [discriminate|]. now intros [a [[] _]].
  - rewrite Hb. simpl. destruct b.
    + split; [|reflexivity]. intros _. exists a. auto.
    + rewrite IH. split.
      * intros [x [Hx Hfx]]. exists x. auto.
      * intros [x [[<-|Hx] Hfx]]; [congruence|]. exists x. auto.
Qed.

Lemma forallb_pointwise {A} (f g : A -> bool) (l : list A) :
  (forall a, f a = g a) -> forallb f l = forallb g l.
Proof.
  intros H. induction l as [|a l IH]; simpl; [reflexivity|].
  now rewrite H, IH.
Qed.

Lemma existsb_over_map {A B} (f : A -> B) (p : B -> bool) (l : list A) :
  existsb p (map f l) = existsb (fun a => p (f a)) l.
Proof.
  induction l as [|a l IH]; simpl; [reflexivity|]. now rewrite IH.
Qed.

Section MatcherFacts.
Context `{RT : JsRuntime}.
Variable fields : list string.

Lemma fieldWords_string (record : Rec) (keys : list string) :
  textFieldsAreStrings keys record = true ->
  mapM (fieldWords record) keys
  = Ok (map (fun key => spaceTokens (stringOf (get record key))) keys).
Proof.
  unfold textFieldsAreStrings.
  induction keys as [|key keys IH]; simpl; [reflexivity|].
  intros H. apply andb_true_iff in H as [Hk Hrest].
  unfold fieldWords at 1. destruct (get record key); try discriminate.
  simpl. rewrite (IH Hrest). reflexivity.
Qed.

Lemma matchesText_string (record : Rec) (text : string) :
  textFieldsAreStrings fields record = true ->
  matchesText fields record text
  = Ok (tokensCovered fields record (spaceTokens text)).
Proof.
  intros H. unfold matchesText. rewrite (fieldWords_string _ _ H). simpl.
  f_equal. unfold tokensCovered. apply forallb_pointwise. intros x.
  now rewrite existsb_over_map.
Qed.

(** On a record whose full-text fields hold strings no query throws. *)
Lemma matchesQuery_total (record : Rec) :
  textFieldsAreStrings fields record = true ->
  forall q, exists b, matchesQuery fields record q = Ok b.
Proof.
  intros Hs. induction q as [qa qo qt props IHa IHo] using Query_nested_ind.
  simpl. destruct qa as [qs|].
  - apply every_total, IHa.
  - destruct qo as [qs|].
    + apply some_total, IHo.
    + destruct qt as [text|].
      * rewrite (matchesText_string _ _ Hs). eauto.
      * eauto.
Qed.

End MatcherFacts.

Section MatcherTheorems.
Context `{RT : JsRuntime}.
Variable fields : list string.

(** C3: [matchesQuery] reads a query by the first of [$and], [$or],
    [$text] it has, in that order, and as a property query when it has
    none; on a record of the collection's type (its full-text fields hold
    strings) every query has a boolean answer, a query with [$and] matches
    iff each of its subqueries matches, and a query with [$or] and without
    [$and] matches iff at least one of its subqueries matches. *)
Theorem matchesQuery_shapes (record : Rec) :
  textFieldsAreStrings fields record = true ->
  (forall qs q_or q_text q_props,
      matchesQuery fields record (mkQuery (Some qs) q_or q_text q_props)
      = every (matchesQuery fields record) qs) /\
  (forall qs q_text q_props,
      matchesQuery fields record (mkQuery None (Some qs) q_text q_props)
      = some (matchesQuery fields record) qs) /\
  (forall text q_props,
      matchesQuery fields record (mkQuery None None (Some text) q_props)
      = matchesText fields record text) /\
  (forall q_props,
      matchesQuery fields record (mkQuery None None None q_props)
      = Ok (matchesPropertyQuery record q_props)) /\
  (forall q, exists b, matchesQuery fields record q = Ok b) /\
  (forall qs q_or q_text q_props,
      matchesQuery fields record (mkQuery (Some qs) q_or q_text q_props) = Ok true
      <-> forall q, In q qs -> matchesQuery fields record q = Ok true) /\
  (forall qs q_text q_props,
      matchesQuery fields record (mkQuery None (Some qs) q_text q_props) = Ok true
      <-> exists q, In q qs /\ matchesQuery fields record q = Ok true).
Proof.
  intros Hs. repeat split; try reflexivity.
  - apply matchesQuery_total, Hs.
  - simpl. now rewrite every_true_iff.
  - simpl. now rewrite every_true_iff.
  - simpl. apply some_true_iff. apply Forall_forall. intros q _.
    apply matchesQuery_total, Hs.
  - simpl. apply some_true_iff. apply Forall_forall. intros q _.
    apply matchesQuery_total, Hs.
Qed.

Lemma tokensCovered_spec (record : Rec) (tokens : list string) :
  tokensCovered fields record tokens = true <->
  forall x, In x tokens ->
    exists key, In key fields /\
                In x (spaceTokens (stringOf (get record key))).
Proof.
  unfold tokensCovered. rewrite forallb_forall. split; intros H x Hx.
  - apply H in Hx. apply existsb_exists in Hx as [key [Hk Hin]].
    exists key. split; [exact Hk|]. unfold Str.includes in Hin.
    apply existsb_exists in Hin as [y [Hy Hxy]].
    apply String.eqb_eq in Hxy. now subst.
  - destruct (H x Hx) as [key [Hk Hin]]. apply existsb_exists.
    exists key. split; [exact Hk|]. unfold Str.includes.
    apply existsb_exists. exists x. split; [exact Hin|apply String.eqb_refl].
Qed.

(** C4, as amended: for every record whose configured full-text fields
    hold strings, a full-text query matches iff every piece of the
    lower-cased search string cut at each single space (an empty piece where
    a space leads, ends or follows another) is a piece, cut the same way, of
    the lower-cased value of at least one configured field; a search for
    ["alpha beta"] matches the field value ["Alpha Gamma Beta"] and does not
    match ["Alphabeta"]. *)
Theorem text_query_tokens :
  (forall record text,
      textFieldsAreStrings fields record = true ->
      matchesQuery fields record (Text text)
      = Ok (tokensCovered fields record (spaceTokens text)) /\
      (matchesQuery fields record (Text text) = Ok true <->
       forall x, In x (spaceTokens text) ->
         exists key, In key fields /\
                     In x (spaceTokens (stringOf (get record key))))) /\
  matchesQuery ["title"] [("title", VStr "Alpha Gamma Beta")] (Text "alpha beta")
  = Ok true /\
  matchesQuery ["title"] [("title", VStr "Alphabeta")] (Text "alpha beta")
  = Ok false.
Proof.
  split; [|split; reflexivity].
  intros record text Hs. simpl. rewrite (matchesText_string _ _ _ Hs).
  split; [reflexivity|]. rewrite <- tokensCovered_spec.
  split; [now intros [= ->]|now intros ->].
Qed.

End MatcherTheorems.

Lemma matchesQuery_shapes_witness :
  let R := [("title", VStr "Alpha Beta"); ("age", VNum (Finite 30))] in
  matchesQuery (RT := miniRuntime) ["title"] R
    (mkQuery None (Some [Text "gamma"; Props [("age", Some (CondGt (VNum (Finite 26))))]])
             (Some "gamma") [])
  = Ok true.
Proof.
  intro R.
  destruct (matchesQuery_shapes (RT := miniRuntime) ["title"] R eq_refl)
    as (_ & _ & _ & _ & _ & _ & Hor).
  apply Hor.
  exists (Props [("age", Some (CondGt (VNum (Finite 26))))]).
  split; [right; left; reflexivity|reflexivity].
Defined.

(** C4, the claim as stated fails: the search string ["alpha  beta"] (two
    spaces) has the white-space-delimited tokens [alpha] and [beta], both
    tokens of the field value ["alpha beta"], and the query does not
    match. *)
Lemma text_query_doubled_space :
  let R := [("title", VStr "alpha beta")] in
  textFieldsAreStrings ["title"] R = true /\
  whitespaceTokens "alpha  beta" = ["alpha"; "beta"] /\
  tokensCovered ["title"] R (whitespaceTokens "alpha  beta") = true /\
  matchesQuery (RT := miniRuntime) ["title"] R (Text "alpha  beta") = Ok false.
Proof. repeat split; reflexivity. Qed.

Lemma text_query_tokens_witness :
  let R := [("title", VStr "Alpha Gamma Beta"); ("body", VStr "delta")] in
  matchesQuery (RT := miniRuntime) ["title"; "body"] R (Text "beta DELTA")
  = Ok true.
Proof.
  intro R.
  destruct (proj1 (text_query_tokens (RT := miniRuntime) ["title"; "body"])
                  R "beta DELTA" eq_refl) as [H _].
  rewrite H. reflexivity.
Defined.

(** ** The collection handle: reading *)

Lemma issue_file (c : FsCall) (w : World) : file (snd (issue c w)) = file w.
Proof. unfold issue. now destruct (faults w). Qed.

Lemma issue_calls (c : FsCall) (w : World) :
  calls (snd (issue c w)) = calls w ++ [c].
Proof. unfold issue. now destruct (faults w). Qed.

Lemma fs_readFile_file (w : World) : file (fst (fs_readFile w)) = file w.
Proof.
  unfold fs_readFile. pose proof (issue_file ReadFile w) as H.
  destruct (issue ReadFile w) as [failed w1]. simpl in H.
  destruct failed; [exact H|]. destruct (file w1) eqn:E; simpl; congruence.
Qed.

Lemma fs_readFile_calls (w : World) :
  calls (fst (fs_readFile w)) = calls w ++ [ReadFile].
Proof.
  unfold fs_readFile. pose proof (issue_calls ReadFile w) as H.
  destruct (issue ReadFile w) as [failed w1]. simpl in H.
  destruct failed; [exact H|]. destruct (file w1) eqn:E; simpl; congruence.
Qed.

Lemma mapM_parse_failure `{RT : JsRuntime} (l : list string) :
  (exists x, In x l /\ JSON_parse x = None) ->
  mapM parseLine l = Throw SyntaxError.
Proof.
  induction l as [|y l IH]; intros [x [Hin Hx]]; [destruct Hin|].
  simpl. unfold parseLine at 1. destruct (JSON_parse y) eqn:E; [|reflexivity].
  simpl. destruct Hin as [->|Hin]; [congruence|].
  rewrite IH; [reflexivity|eauto].
Qed.

Section Reading.
Context `{RT : JsRuntime}.
Variable fields : list string.

Lemma getRecords_world (w : World) :
  fst (getRecords w) = fst (fs_readFile w).
Proof.
  unfold getRecords. destruct (fs_readFile w) as [w1 [code|data]];
    [reflexivity|].
  now destruct (mapM parseLine (liveLines data)).
Qed.

Lemma findBody_world (query : Query) (options : option QueryOptions) (w : World) :
  fst (findBody fields query options w) = fst (fs_readFile w).
Proof.
  unfold findBody. rewrite <- getRecords_world.
  destruct (getRecords w) as [w1 [records|e|e|]]; try reflexivity.
  simpl. destruct (filterM _ records); [|reflexivity].
  destruct options as [[so [p|]]|]; reflexivity.
Qed.

(** C10: [find] leaves the log as it was: whatever the query and the
    options, the function it runs under the lock issues one [readFile] and
    nothing else, and the file holds afterwards what it held before; so does
    a call of [find] on a collection with nothing queued on its lock. *)
Theorem find_leaves_log (query : Query) (options : option QueryOptions)
  (w : World) :
  file (fst (findBody fields query options w)) = file w /\
  calls (fst (findBody fields query options w)) = calls w ++ [ReadFile] /\
  file (world (fst (find fields query options (idle w)))) = file w /\
  calls (world (fst (find fields query options (idle w)))) = calls w ++ [ReadFile].
Proof.
  assert (Hw : world (fst (find fields query options (idle w)))
               = fst (findBody fields query options w)).
  { rewrite find_idle_eq.
    destruct (findBody fields query options w) as [w1 [a|e|e|]]; reflexivity. }
  rewrite Hw, findBody_world.
  repeat split; auto using fs_readFile_file, fs_readFile_calls.
Qed.

(** C6: when the read of the file succeeds and one of the lines tagged
    live does not parse as JSON, [getRecords] resolves to no list of
    records at all: the [SyntaxError] escapes as an uncaught exception, and
    so it does from [find] and from [delete], which then neither truncates
    the file nor asks for any re-append. *)
Theorem decode_failure_is_fatal (w w1 : World) (data : string)
  (query : Query) (options : option QueryOptions) :
  fs_readFile w = (w1, inr data) ->
  (exists x, In x (liveLines data) /\ JSON_parse x = None) ->
  getRecords w = (w1, Uncaught SyntaxError) /\
  (forall records, snd (getRecords w) <> Resolved records) /\
  find fields query options (idle w)
  = (mkSys w1 [] true, Uncaught SyntaxError) /\
  delete fields query (idle w) = (mkSys w1 [] true, Uncaught SyntaxError) /\
  file w1 = file w /\ calls w1 = calls w ++ [ReadFile].
Proof.
  intros Hread Hbad.
  assert (Hg : getRecords w = (w1, Uncaught SyntaxError)).
  { unfold getRecords. rewrite Hread. now rewrite (mapM_parse_failure _ Hbad). }
  split; [exact Hg|]. split; [now rewrite Hg|].
  split; [|split].
  - rewrite find_idle_eq. unfold findBody. now rewrite Hg.
  - rewrite delete_idle_eq. unfold deleteBody. now rewrite Hg.
  - pose proof (fs_readFile_file w) as Hf.
    pose proof (fs_readFile_calls w) as Hc.
    rewrite Hread in Hf, Hc. auto.
Qed.

(** A failed read rejects [find] with the error of the file system. *)
Lemma find_rejects_read_failure (w w1 : World) (code : Errno)
  (query : Query) (options : option QueryOptions) :
  fs_readFile w = (w1, inl code) ->
  find fields query options (idle w)
  = (mkSys w1 [] false, Rejected (IOError code)).
Proof.
  intros H. rewrite find_idle_eq. unfold findBody, getRecords.
  now rewrite H.
Qed.

(** [insert] resolves whatever [appendFile] reports. *)
Lemma insertBody_resolves (record : Rec) (asDeleted : bool) (w : World) :
  snd (insertBody record asDeleted w) = Resolved Done.
Proof.
  unfold insertBody. now destruct (fs_appendFile w (logLine record asDeleted)).
Qed.

End Reading.

Lemma decode_failure_is_fatal_witness :
  let w := quietWorld corruptLog in
  find (RT := miniRuntime) [] (Props []) None (idle w)
  = (mkSys (mkWorld (Some corruptLog) [] [ReadFile]) [] true,
     Uncaught SyntaxError).
Proof.
  intro w.
  refine (proj1 (proj2 (proj2
           (decode_failure_is_fatal (RT := miniRuntime) [] w
              (mkWorld (Some corruptLog) [] [ReadFile]) corruptLog
              (Props []) None eq_refl _)))).
  exists "{oops". split; [vm_compute; auto|reflexivity].
Defined.

(** C5, at the failing input: the append of [insert(ann)] fails with [EIO],
    the file keeps its contents, and the promise of [insert] resolves. *)
Theorem insert_swallows_append_failure :
  let w := mkWorld (Some EmptyString) [true] [] in
  snd (fs_appendFile w (logLine (RT := miniRuntime) ann false)) = Some EIO /\
  insert (RT := miniRuntime) [] ann false (idle w)
  = (mkSys (mkWorld (Some EmptyString) []
                    [AppendFile (logLine (RT := miniRuntime) ann false)])
           [] false,
     Resolved Done).
Proof. split; reflexivity. Qed.

(** The same in [delete]: the failure of [truncate] goes unreported, and
    the records are appended after the old contents. *)
Lemma delete_swallows_truncate_failure :
  let data := logOf (RT := miniRuntime) [(ann, false)] in
  let w := mkWorld (Some data) [false; true] [] in
  let (s, out) := delete (RT := miniRuntime) [] (Props []) (idle w) in
  out = Resolved Done /\
  file (world (settle (RT := miniRuntime) [] 1 s))
  = Some (data ++ logOf (RT := miniRuntime) [(ann, true)])%string.
Proof. split; reflexivity. Qed.

(** ** Lines of a log *)

Lemma append_assoc (a b c : string) : ((a ++ b) ++ c = a ++ (b ++ c))%string.
Proof. induction a as [|x a IH]; simpl; [reflexivity|now rewrite IH]. Qed.

Lemma append_empty_r (a : string) : (a ++ EmptyString)%string = a.
Proof. induction a as [|x a IH]; simpl; [reflexivity|now rewrite IH]. Qed.

Lemma trimStart_black (s : string) : startsBlack s = true -> Str.trimStart s = s.
Proof.
  destruct s as [|c s]; simpl; [discriminate|].
  now destruct (Str.isWhite c).
Qed.

Lemma startsBlack_append (a b : string) :
  startsBlack a = true -> startsBlack (a ++ b) = true.
Proof. now destruct a. Qed.

Lemma endsBlack_nonempty (s : string) : Str.endsBlack s = true -> Str.isEmpty s = false.
Proof. now destruct s. Qed.

Lemma trimEnd_cons (c : ascii) (s : string) :
  Str.trimEnd (String c s)
  = if Str.isWhite c && Str.isEmpty (Str.trimEnd s) then EmptyString
    else String c (Str.trimEnd s).
Proof. reflexivity. Qed.

Lemma append_cons (c : ascii) (a b : string) :
  (String c a ++ b)%string = String c (a ++ b).
Proof. reflexivity. Qed.

Lemma trimEnd_line (l : string) :
  Str.endsBlack l = true ->
  Str.trimEnd (l ++ String Str.newline EmptyString) = l.
Proof.
  induction l as [|c l IH]; [discriminate|].
  destruct l as [|d l].
  - simpl. intros H. apply negb_true_iff in H. rewrite H. reflexivity.
  - intros H. change (Str.endsBlack (String d l) = true) in H.
    specialize (IH H).
    rewrite append_cons, trimEnd_cons, IH. simpl. now rewrite andb_false_r.
Qed.

Lemma trimEnd_append (a b : string) :
  Str.isEmpty (Str.trimEnd b) = false ->
  Str.trimEnd (a ++ b) = (a ++ Str.trimEnd b)%string.
Proof.
  intros Hb. induction a as [|c a IH]; simpl; [reflexivity|].
  rewrite IH. destruct (a ++ Str.trimEnd b)%string eqn:E.
  - destruct a; simpl in E; [rewrite E in Hb; discriminate|discriminate].
  - simpl. now rewrite andb_false_r.
Qed.

Lemma cleanLine_parts (l : string) :
  cleanLine l = true ->
  Str.hasChar Str.newline l = false /\ startsBlack l = true /\
  Str.endsBlack l = true.
Proof.
  unfold cleanLine. intros H.
  apply andb_true_iff in H as [H H3]. apply andb_true_iff in H as [H1 H2].
  apply negb_true_iff in H1. auto.
Qed.

Lemma joinLines_nonempty (l : string) (ls : list string) :
  startsBlack l = true -> Str.isEmpty (joinLines (l :: ls)) = false.
Proof.
  destruct l; [discriminate|]. intros _. now destruct ls.
Qed.

Lemma trimEnd_fileOfLines (ls : list string) :
  Forall (fun l => cleanLine l = true) ls ->
  Str.trimEnd (fileOfLines ls) = joinLines ls.
Proof.
  induction 1 as [|l ls Hl Hls IH]; [reflexivity|].
  apply cleanLine_parts in Hl as (_ & Hs & He).
  destruct ls as [|l2 ls].
  - simpl. now apply trimEnd_line.
  - change (fileOfLines (l :: l2 :: ls))
      with (l ++ String Str.newline (fileOfLines (l2 :: ls)))%string.
    change (joinLines (l :: l2 :: ls))
      with (l ++ String Str.newline (joinLines (l2 :: ls)))%string.
    inversion Hls as [|? ? Hl2 _]; subst.
    apply cleanLine_parts in Hl2 as (_ & Hs2 & _).
    assert (Ht : Str.trimEnd (String Str.newline (fileOfLines (l2 :: ls)))
                 = String Str.newline (joinLines (l2 :: ls))).
    { rewrite trimEnd_cons, IH, (joinLines_nonempty l2 ls Hs2).
      now rewrite andb_false_r. }
    rewrite trimEnd_append; rewrite Ht; reflexivity.
Qed.

Lemma split_line (l rest : string) :
  Str.hasChar Str.newline l = false ->
  Str.split Str.newline (l ++ String Str.newline rest)
  = l :: Str.split Str.newline rest.
Proof.
  induction l as [|c l IH]; intros H.
  - reflexivity.
  - simpl in H. apply orb_false_iff in H as [Hc Hl].
    rewrite append_cons. simpl. rewrite Hc, (IH Hl). reflexivity.
Qed.

Lemma split_single (l : string) :
  Str.hasChar Str.newline l = false -> Str.split Str.newline l = [l].
Proof.
  induction l as [|c l IH]; intros H; [reflexivity|].
  simpl in H. apply orb_false_iff in H as [Hc Hl].
  simpl. rewrite Hc, (IH Hl). reflexivity.
Qed.

Lemma split_joinLines (l : string) (ls : list string) :
  Forall (fun l => cleanLine l = true) (l :: ls) ->
  Str.split Str.newline (joinLines (l :: ls)) = l :: ls.
Proof.
  revert l. induction ls as [|l2 ls IH]; intros l H;
    inversion H as [|? ? Hl Hls]; subst;
    apply cleanLine_parts in Hl as (Hn & _ & _).
  - now apply split_single.
  - change (joinLines (l :: l2 :: ls))
      with (l ++ String Str.newline (joinLines (l2 :: ls)))%string.
    rewrite (split_line _ _ Hn), (IH l2 Hls). reflexivity.
Qed.

Lemma lines_fileOfLines (ls : list string) :
  Forall (fun l => cleanLine l = true) ls ->
  Str.split Str.newline (Str.trim (fileOfLines ls))
  = match ls with [] => [EmptyString] | _ => ls end.
Proof.
  intros H. destruct ls as [|l ls]; [reflexivity|].
  unfold Str.trim. rewrite trimStart_black.
  - rewrite (trimEnd_fileOfLines _ H). now apply split_joinLines.
  - inversion H as [|? ? Hl _]; subst.
    apply cleanLine_parts in Hl as (_ & Hs & _).
    simpl. now apply startsBlack_append.
Qed.

Lemma liveLines_fileOfLines (ls : list string) :
  Forall (fun l => cleanLine l = true) ls ->
  liveLines (fileOfLines ls)
  = map Str.substr1 (filter (Str.startsWith liveTag) ls).
Proof.
  intros H. unfold liveLines. rewrite (lines_fileOfLines _ H).
  now destruct ls.
Qed.

Section LogFormat.
Context `{RT : JsRuntime}.

Lemma logOf_lines (entries : list (Rec * bool)) :
  logOf entries = fileOfLines (map entryLine entries).
Proof.
  induction entries as [|e entries IH]; [reflexivity|].
  simpl. rewrite IH. unfold logLine, entryLine. simpl.
  now rewrite append_assoc.
Qed.

Lemma entryLine_clean (e : Rec * bool) :
  faithful (fst e) -> cleanLine (entryLine e) = true.
Proof.
  intros (Hn & He & _). unfold cleanLine, entryLine.
  assert (Hb : Str.isEmpty (JSON_stringify (fst e)) = false)
    by now apply endsBlack_nonempty.
  destruct (JSON_stringify (fst e)) as [|c s] eqn:E; [discriminate|].
  apply andb_true_iff. split; [apply andb_true_iff; split|].
  - apply negb_true_iff.
    change (Str.hasChar Str.newline (String (if snd e then deadTag else liveTag)
                                            (String c s)))
      with (Ascii.eqb (if snd e then deadTag else liveTag) Str.newline
            || Str.hasChar Str.newline (String c s)).
    rewrite Hn. now destruct (snd e).
  - now destruct (snd e).
  - exact He.
Qed.

Lemma liveLines_logOf (entries : list (Rec * bool)) :
  Forall (fun e => faithful (fst e)) entries ->
  liveLines (logOf entries) = map JSON_stringify (liveRecords entries).
Proof.
  intros H. rewrite logOf_lines, liveLines_fileOfLines.
  - unfold liveRecords. clear H.
    induction entries as [|[r d] entries IH]; [reflexivity|].
    destruct d; simpl; [exact IH|]. now rewrite IH.
  - apply Forall_map. eapply Forall_impl; [|exact H].
    intros e. apply entryLine_clean.
Qed.

Lemma parse_stringified (records : list Rec) :
  Forall faithful records ->
  mapM parseLine (map JSON_stringify records) = Ok records.
Proof.
  induction 1 as [|r records (_ & _ & Hr) _ IH]; [reflexivity|].
  simpl. unfold parseLine at 1. rewrite Hr. simpl. now rewrite IH.
Qed.

Lemma liveRecords_faithful (entries : list (Rec * bool)) :
  Forall (fun e => faithful (fst e)) entries ->
  Forall faithful (liveRecords entries).
Proof.
  intros H. unfold liveRecords. apply Forall_map.
  apply Forall_forall. intros e He. apply filter_In in He as [He _].
  now apply (proj1 (Forall_forall _ _) H).
Qed.

(** Reading back a log written by [insert]. *)
Lemma getRecords_logOf (entries : list (Rec * bool)) (w : World) :
  Forall (fun e => faithful (fst e)) entries ->
  file w = Some (logOf entries) -> faults w = [] ->
  getRecords w
  = (mkWorld (file w) [] (calls w ++ [ReadFile]),
     Resolved (liveRecords entries)).
Proof.
  intros H Hf Hq. unfold getRecords, fs_readFile, issue. rewrite Hq. simpl.
  rewrite Hf. rewrite (liveLines_logOf _ H).
  now rewrite (parse_stringified _ (liveRecords_faithful _ H)).
Qed.

End LogFormat.

(** ** The re-appends of [delete] *)

Lemma filterM_Ok {A} (f : A -> Result bool) (l kept : list A) :
  filterM f l = Ok kept ->
  Forall (fun a => exists b, f a = Ok b) l /\
  kept = filter (fun a => isTrue (f a)) l.
Proof.
  revert kept. induction l as [|a l IH]; simpl; intros kept H.
  - injection H as <-. auto.
  - destruct (f a) as [b|e] eqn:E; [|discriminate]. simpl in H.
    destruct (filterM f l) as [rest|e]; [|discriminate]. simpl in H.
    injection H as <-. destruct (IH rest eq_refl) as [Hall ->].
    split; [constructor; eauto|]. now destruct b.
Qed.

Lemma filterM_total {A} (f : A -> Result bool) (l : list A) :
  Forall (fun a => exists b, f a = Ok b) l ->
  filterM f l = Ok (filter (fun a => isTrue (f a)) l).
Proof.
  induction 1 as [|a l [b Hb] _ IH]; [reflexivity|].
  simpl. rewrite Hb, IH. simpl. now destruct b.
Qed.

Lemma withIdentity_snd (records : list Rec) :
  map snd (withIdentity records) = records.
Proof.
  unfold withIdentity. generalize 0.
  induction records as [|r records IH]; intros n; [reflexivity|].
  simpl. now rewrite IH.
Qed.

Lemma withIdentity_fst (records : list Rec) :
  map fst (withIdentity records) = seq 0 (List.length records).
Proof.
  unfold withIdentity. generalize 0.
  induction records as [|r records IH]; intros n; [reflexivity|].
  simpl. now rewrite IH.
Qed.

Lemma NoDup_fst_eq {A B} (l : list (A * B)) (x y : A * B) :
  NoDup (map fst l) -> In x l -> In y l -> fst x = fst y -> x = y.
Proof.
  induction l as [|z l IH]; simpl; [tauto|].
  intros Hnd Hx Hy Hxy. inversion Hnd as [|? ? Hz Hl]; subst.
  destruct Hx as [<-|Hx], Hy as [<-|Hy]; auto.
  - exfalso. apply Hz. rewrite Hxy. now apply in_map.
  - exfalso. apply Hz. rewrite <- Hxy. now apply in_map.
Qed.

(** [recordsToDelete.includes(r)] says whether [r] matched. *)
Lemma includesRef_filter (p : nat * Rec -> bool) (l : list (nat * Rec))
  (r : nat * Rec) :
  NoDup (map fst l) -> In r l -> includesRef (filter p l) r = p r.
Proof.
  intros Hnd Hr. unfold includesRef. destruct (p r) eqn:E.
  - apply existsb_exists. exists r. split; [|apply Nat.eqb_refl].
    apply filter_In. auto.
  - apply not_true_is_false. intros H.
    apply existsb_exists in H as [x [Hx Hxr]].
    apply filter_In in Hx as [Hx Hpx]. apply Nat.eqb_eq in Hxr.
    assert (x = r) by now apply (NoDup_fst_eq l). subst. congruence.
Qed.

Lemma map_ext_in_list {A B} (f g : A -> B) (l : list A) :
  (forall a, In a l -> f a = g a) -> map f l = map g l.
Proof.
  induction l as [|a l IH]; simpl; intros H; [reflexivity|].
  rewrite (H a (or_introl eq_refl)), IH; auto.
Qed.

Section Rewrite.
Context `{RT : JsRuntime}.
Variable fields : list string.

Lemma deleteBody_resolved (query : Query) (w w1 : World) (records : list Rec) :
  getRecords w = (w1, Resolved records) ->
  Forall (fun r => exists b, matchesQuery fields r query = Ok b) records ->
  deleteBody fields query w
  = (fst (fs_truncate w1), Resolved Done,
     map reinsert (verdicts fields query records)).
Proof.
  intros Hg Hall. unfold deleteBody. rewrite Hg. unfold filterMatching.
  rewrite filterM_total.
  2:{ apply Forall_forall. intros x Hx.
      apply (proj1 (Forall_forall _ _) Hall).
      rewrite <- (withIdentity_snd records). now apply in_map. }
  destruct (fs_truncate w1) as [w2 r]. simpl. f_equal.
  unfold verdicts. rewrite map_map.
  rewrite <- (withIdentity_snd records) at 2. rewrite map_map.
  apply map_ext_in_list. intros r0 Hr0. unfold reinsert. simpl. f_equal.
  apply (includesRef_filter
           (fun a => isTrue (matchesQuery fields (snd a) query))); [|exact Hr0].
  rewrite withIdentity_fst. apply seq_NoDup.
Qed.

End Rewrite.

Lemma fs_appendFile_calls (w : World) (data : string) :
  calls (fst (fs_appendFile w data)) = calls w ++ [AppendFile data].
Proof.
  unfold fs_appendFile. pose proof (issue_calls (AppendFile data) w) as H.
  destruct (issue (AppendFile data) w) as [failed w1]. simpl in H.
  destruct failed; [exact H|]. now destruct (file w1).
Qed.

Lemma fs_appendFile_quiet (w : World) (old data : string) :
  faults w = [] -> file w = Some old ->
  file (fst (fs_appendFile w data)) = Some (old ++ data)%string /\
  faults (fst (fs_appendFile w data)) = [].
Proof.
  intros Hq Hf. unfold fs_appendFile, issue. rewrite Hq. simpl.
  rewrite Hf. auto.
Qed.

Section Appends.
Context `{RT : JsRuntime}.
Variable fields : list string.

Lemma insertBody_world (record : Rec) (asDeleted : bool) (w : World) :
  fst (insertBody record asDeleted w)
  = fst (fs_appendFile w (logLine record asDeleted)).
Proof.
  unfold insertBody. now destruct (fs_appendFile w (logLine record asDeleted)).
Qed.

Lemma insertBody_eq (record : Rec) (asDeleted : bool) (w : World) :
  insertBody record asDeleted w
  = (fst (fs_appendFile w (logLine record asDeleted)), Resolved Done).
Proof.
  unfold insertBody. now destruct (fs_appendFile w (logLine record asDeleted)).
Qed.

Lemma appendEntries_calls (entries : list (Rec * bool)) (w : World) :
  calls (appendEntries w entries)
  = calls w ++ map (fun e => AppendFile (logLine (fst e) (snd e))) entries.
Proof.
  revert w. induction entries as [|e entries IH]; intros w; simpl.
  - now rewrite app_nil_r.
  - unfold appendEntries in *. simpl. rewrite IH, insertBody_world.
    rewrite fs_appendFile_calls, <- app_assoc. reflexivity.
Qed.

Lemma appendEntries_quiet (entries : list (Rec * bool)) (w : World)
  (old : string) :
  faults w = [] -> file w = Some old ->
  file (appendEntries w entries) = Some (old ++ logOf entries)%string /\
  faults (appendEntries w entries) = [].
Proof.
  revert w old. induction entries as [|e entries IH]; intros w old Hq Hf.
  - simpl. now rewrite append_empty_r.
  - unfold appendEntries in *. simpl. rewrite insertBody_world.
    destruct (fs_appendFile_quiet w old (logLine (fst e) (snd e)) Hq Hf)
      as [Hf1 Hq1].
    destruct (IH _ _ Hq1 Hf1) as [Hf2 Hq2].
    rewrite Hf2, Hq2, append_assoc. auto.
Qed.

Lemma completeAppend_recordCall (w : World) (data : string) :
  completeAppend (recordCall (AppendFile data) w) data
  = fst (fs_appendFile w data).
Proof.
  unfold completeAppend, recordCall, fs_appendFile, issue. simpl.
  destruct (faults w) as [|[|] rest]; simpl; try reflexivity;
    destruct (file w); reflexivity.
Qed.

Lemma runTask_reinsert (e : Rec * bool) (w : World) :
  runTask fields (reinsert e) w
  = (fst (insertBody (fst e) (snd e) w), Resolved Done, []).
Proof. unfold reinsert. cbn [runTask]. now rewrite insertBody_eq. Qed.

Lemma advance_reinserts (entries : list (Rec * bool)) (q : list Task)
  (w : World) :
  advance fields (List.length entries) (map reinsert entries ++ q) w
  = (appendEntries w entries, q, false).
Proof.
  revert w. induction entries as [|e entries IH]; intros w; [now destruct q|].
  cbn [List.length map app advance]. rewrite runTask_reinsert.
  rewrite acquireAll_nil. apply IH.
Qed.

(** The lock handed to the first of the queued re-inserts. *)
Lemma handOver_reinserts (e : Rec * bool) (entries : list (Rec * bool))
  (w : World) :
  handOver w (map reinsert (e :: entries))
  = mkSys (recordCall (AppendFile (logLine (fst e) (snd e))) w)
          (TAppending (logLine (fst e) (snd e)) :: map reinsert entries) false.
Proof. reflexivity. Qed.

Lemma runTask_appending (e : Rec * bool) (w : World) :
  runTask fields (TAppending (logLine (fst e) (snd e)))
          (recordCall (AppendFile (logLine (fst e) (snd e))) w)
  = (fst (insertBody (fst e) (snd e) w), Resolved Done, []).
Proof.
  cbn [runTask]. now rewrite completeAppend_recordCall, insertBody_world.
Qed.

Lemma settle_reinserts (entries : list (Rec * bool)) (w : World) :
  settle fields (List.length entries) (handOver w (map reinsert entries))
  = mkSys (appendEntries w entries) [] false.
Proof.
  revert w. induction entries as [|e entries IH]; intros w; [reflexivity|].
  rewrite handOver_reinserts. cbn [List.length settle stuck queue world].
  rewrite runTask_appending, acquireAll_nil. apply IH.
Qed.

(** A call made once [delete] has resolved runs when the re-inserts that
    were queued are done. *)
Lemma await_reinserts (entries : list (Rec * bool)) (t : Task) (w : World) :
  (List.length entries <= maxPending)%nat ->
  await fields t (handOver w (map reinsert entries))
  = exec fields t [] (appendEntries w entries).
Proof.
  intros Hlen. destruct entries as [|e entries]; [reflexivity|].
  rewrite handOver_reinserts. unfold await. cbn [stuck queue world].
  assert (E : (maxPending <=? List.length (map reinsert entries))%nat = false).
  { apply Nat.leb_gt. rewrite length_map. simpl in Hlen. lia. }
  rewrite E. cbn [List.length app advance].
  rewrite runTask_appending, acquireAll_nil.
  rewrite length_map, advance_reinserts. reflexivity.
Qed.

Lemma getRecords_resolved_file (w w1 : World) (records : list Rec) :
  getRecords w = (w1, Resolved records) ->
  calls w1 = calls w ++ [ReadFile] /\ file w1 = file w /\
  (exists data, file w = Some data) /\ (faults w = [] -> faults w1 = []).
Proof.
  intros H. pose proof (getRecords_world w) as Hw. rewrite H in Hw. simpl in Hw.
  subst w1. split; [apply fs_readFile_calls|]. split; [apply fs_readFile_file|].
  unfold getRecords, fs_readFile, issue in *.
  destruct (faults w) as [|[|] rest]; simpl in *; try discriminate.
  - destruct (file w) as [data|]; [|discriminate]. split; eauto.
  - destruct (file w) as [data|]; [|discriminate]. split; [eauto|discriminate].
Qed.

Lemma fs_truncate_calls (w : World) :
  calls (fst (fs_truncate w)) = calls w ++ [Truncate].
Proof.
  unfold fs_truncate. pose proof (issue_calls Truncate w) as H.
  destruct (issue Truncate w) as [failed w1]. simpl in H.
  destruct failed; [exact H|]. now destruct (file w1).
Qed.

Lemma fs_truncate_quiet (w : World) (data : string) :
  faults w = [] -> file w = Some data ->
  file (fst (fs_truncate w)) = Some EmptyString /\
  faults (fst (fs_truncate w)) = [].
Proof.
  intros Hq Hf. unfold fs_truncate, issue. rewrite Hq. simpl.
  rewrite Hf. auto.
Qed.

End Appends.

Lemma filter_filter_negb {A} (p : A -> bool) (l : list A) :
  filter p (filter (fun a => negb (p a)) l) = [].
Proof.
  induction l as [|a l IH]; [reflexivity|].
  simpl. destruct (p a) eqn:E; simpl; [exact IH|]. now rewrite E.
Qed.

Lemma In_firstn_list {A} (n : nat) (l : list A) (a : A) :
  In a (firstn n l) -> In a l.
Proof.
  intros H. rewrite <- (firstn_skipn n l). apply in_or_app. now left.
Qed.

Lemma Forall_firstn_list {A} (P : A -> Prop) (n : nat) (l : list A) :
  Forall P l -> Forall P (firstn n l).
Proof.
  intros H. apply Forall_forall. intros a Ha.
  apply (proj1 (Forall_forall _ _) H). now apply (In_firstn_list n).
Qed.

Section DeleteTheorems.
Context `{RT : JsRuntime}.
Variable fields : list string.

Lemma verdicts_fst (query : Query) (records : list Rec) :
  map fst (verdicts fields query records) = records.
Proof. unfold verdicts. rewrite map_map. simpl. apply map_id. Qed.

Lemma verdicts_live (query : Query) (records : list Rec) :
  liveRecords (verdicts fields query records)
  = filter (fun r => negb (isTrue (matchesQuery fields r query))) records.
Proof.
  unfold liveRecords, verdicts.
  induction records as [|r records IH]; [reflexivity|].
  simpl. destruct (isTrue (matchesQuery fields r query)); simpl; now rewrite IH.
Qed.

Lemma verdicts_faithful (query : Query) (records : list Rec) :
  Forall faithful records ->
  Forall (fun e => faithful (fst e)) (verdicts fields query records).
Proof.
  intros H. apply Forall_forall. intros e He.
  apply (proj1 (Forall_forall _ _) H).
  rewrite <- (verdicts_fst query records). now apply in_map.
Qed.

Lemma delete_resolved (query : Query) (w w1 : World) (records : list Rec) :
  getRecords w = (w1, Resolved records) ->
  Forall (fun r => exists b, matchesQuery fields r query = Ok b) records ->
  delete fields query (idle w)
  = (handOver (fst (fs_truncate w1))
              (map reinsert (verdicts fields query (firstn maxPending records))),
     Resolved Done).
Proof.
  intros Hg Hall. rewrite delete_idle_eq.
  rewrite (deleteBody_resolved fields query w w1 records Hg Hall).
  rewrite acquireAll_firstn. cbn [List.length app]. rewrite Nat.sub_0_r.
  unfold verdicts. now rewrite !firstn_map.
Qed.

(** The collection when [delete] has resolved. *)
Lemma delete_state (query : Query) (w w1 : World) (records : list Rec) :
  getRecords w = (w1, Resolved records) -> faults w = [] ->
  Forall (fun r => exists b, matchesQuery fields r query = Ok b) records ->
  exists w2,
    delete fields query (idle w)
    = (handOver w2
         (map reinsert (verdicts fields query (firstn maxPending records))),
       Resolved Done) /\
    file w2 = Some EmptyString /\ faults w2 = [] /\
    calls w2 = calls w ++ [ReadFile; Truncate].
Proof.
  intros Hg Hq Hall. exists (fst (fs_truncate w1)).
  destruct (getRecords_resolved_file _ _ _ Hg) as (Hc & Hf & [data Hd] & Hq1).
  rewrite Hd in Hf.
  destruct (fs_truncate_quiet w1 data (Hq1 Hq) Hf) as [Hf2 Hq2].
  split; [now apply delete_resolved|]. split; [exact Hf2|].
  split; [exact Hq2|].
  rewrite fs_truncate_calls, Hc, <- app_assoc. reflexivity.
Qed.

Lemma verdicts_length (query : Query) (records : list Rec) :
  List.length (verdicts fields query records) = List.length records.
Proof. unfold verdicts. apply length_map. Qed.

(** What [find] answers once the re-inserts of [delete] are done. *)
Lemma find_after_reinserts (query query2 : Query)
  (options : option QueryOptions) (w2 : World) (kept : list Rec) :
  file w2 = Some EmptyString -> faults w2 = [] ->
  (List.length kept <= maxPending)%nat ->
  Forall faithful kept ->
  snd (find fields query2 options
         (handOver w2 (map reinsert (verdicts fields query kept))))
  = match filterM (fun x => matchesQuery fields x query2)
                  (filter (fun r => negb (isTrue (matchesQuery fields r query)))
                          kept) with
    | Ok found => Resolved (Records (shape options found))
    | Throw e => Rejected e
    end.
Proof.
  intros Hf2 Hq2 Hlen Hfaith.
  destruct (appendEntries_quiet (verdicts fields query kept) _ _ Hq2 Hf2)
    as [Hf3 Hq3].
  unfold find. rewrite await_reinserts by now rewrite verdicts_length.
  unfold exec. cbn [runTask]. unfold findBody.
  rewrite (getRecords_logOf (verdicts fields query kept));
    auto using verdicts_faithful.
  rewrite verdicts_live.
  destruct (filterM _ _) as [found|e]; [|reflexivity].
  destruct options as [[[so|] [p|]]|]; reflexivity.
Qed.

(** C1: on a collection with no storage failure due, whose records the
    JSON codec writes and reads back faithfully, once [delete(Q)] has
    resolved, [find(Q)] (whatever its options) resolves to the empty
    sequence. *)
Theorem delete_then_find_empty (query : Query) (options : option QueryOptions)
  (w : World) (s : Sys) :
  faults w = [] ->
  (forall w1 records, getRecords w = (w1, Resolved records) ->
                      Forall faithful records) ->
  delete fields query (idle w) = (s, Resolved Done) ->
  snd (find fields query options s) = Resolved (Records []).
Proof.
  intros Hq Hfaith Hdel.
  destruct (getRecords w) as [w1 out] eqn:Hg.
  assert (Hres : exists records, out = Resolved records /\
            Forall (fun r => exists b, matchesQuery fields r query = Ok b) records).
  { rewrite delete_idle_eq in Hdel.
    unfold deleteBody in Hdel. rewrite Hg in Hdel.
    destruct out as [records|e|e|]; try discriminate.
    exists records. split; [reflexivity|].
    destruct (filterMatching fields query (withIdentity records)) as [kept|e] eqn:Hk;
      [|discriminate].
    apply filterM_Ok in Hk as [Hall _].
    rewrite <- (withIdentity_snd records). apply Forall_map. exact Hall. }
  destruct Hres as [records [-> Hall]].
  destruct (delete_state query w w1 records Hg Hq Hall)
    as [w2 (Hdel2 & Hf2 & Hq2 & _)].
  rewrite Hdel2 in Hdel. apply (f_equal fst) in Hdel. cbn [fst] in Hdel.
  subst s.
  assert (Hlen : (List.length (firstn maxPending records) <= maxPending)%nat)
    by (rewrite length_firstn; lia).
  assert (Hkept : Forall faithful (firstn maxPending records))
    by (apply Forall_firstn_list; now apply (Hfaith w1 records)).
  rewrite (find_after_reinserts query query options w2 _ Hf2 Hq2 Hlen Hkept).
  rewrite filterM_total.
  - rewrite filter_filter_negb. now destruct options as [[[so|] [p|]]|].
  - apply Forall_forall. intros r Hr. apply filter_In in Hr as [Hr _].
    apply (proj1 (Forall_forall _ _) Hall). now apply (In_firstn_list maxPending).
Qed.

End DeleteTheorems.

Lemma ann_bob_faithful :
  Forall (faithful (RT := miniRuntime)) [ann; bob].
Proof. repeat constructor. Qed.

Lemma delete_then_find_empty_witness :
  snd (find (RT := miniRuntime) [] isBob None
         (fst (delete (RT := miniRuntime) [] isBob (idle annBobWorld))))
  = Resolved (Records []).
Proof.
  apply (delete_then_find_empty (RT := miniRuntime) [] isBob None annBobWorld).
  - reflexivity.
  - intros w1 records H. vm_compute in H. injection H as _ <-.
    exact ann_bob_faithful.
  - reflexivity.
Defined.

(** ** Insert, then find *)

Lemma fileOfLines_app (a b : list string) :
  fileOfLines (a ++ b) = (fileOfLines a ++ fileOfLines b)%string.
Proof.
  induction a as [|l a IH]; [reflexivity|].
  simpl. rewrite IH, append_assoc. reflexivity.
Qed.

Lemma mapM_snoc {A B} (f : A -> Result B) (l : list A) (a : A)
  (bs : list B) (b : B) :
  mapM f l = Ok bs -> f a = Ok b -> mapM f (l ++ [a]) = Ok (bs ++ [b]).
Proof.
  revert bs. induction l as [|x l IH]; simpl; intros bs Hl Ha.
  - injection Hl as <-. now rewrite Ha.
  - destruct (f x) as [y|e]; [|discriminate]. simpl in *.
    destruct (mapM f l) as [ys|e]; [|discriminate]. simpl in Hl.
    injection Hl as <-. now rewrite (IH ys eq_refl Ha).
Qed.

Lemma occurrences_snoc (record : Rec) (records : list Rec) :
  occurrences record (records ++ [record]) = S (occurrences record records).
Proof.
  unfold occurrences. rewrite count_occ_app. simpl.
  destruct (Rec_eq_dec record record); [lia|congruence].
Qed.

Section InsertTheorems.
Context `{RT : JsRuntime}.
Variable fields : list string.

Lemma findAll_quiet (w : World) (data : string) (records : list Rec) :
  file w = Some data -> faults w = [] ->
  mapM parseLine (liveLines data) = Ok records ->
  snd (find fields (Props []) None (idle w)) = Resolved (Records records).
Proof.
  intros Hf Hq Hp. rewrite find_idle_eq.
  unfold findBody, getRecords, fs_readFile, issue. rewrite Hq. simpl.
  rewrite Hf, Hp. rewrite filterM_total.
  - simpl. f_equal. f_equal. clear. induction records as [|r l IH]; simpl; congruence.
  - apply Forall_forall. intros r _. now exists true.
Qed.

(** C7, as amended: on a log in the format of the store (every line
    closed by a line feed) whose live lines decode to the records [olds],
    with no storage failure due, [insert(r)] followed by [find({})] returns
    [olds] followed by [r]: [r] occurs once more than before the insert, and
    exactly once when no live line of the log already held [r]. *)
Theorem insert_then_find_all (record : Rec) (ls : list string)
  (olds : list Rec) (w : World) :
  Forall (fun l => cleanLine l = true) ls ->
  file w = Some (fileOfLines ls) -> faults w = [] ->
  faithful record ->
  mapM parseLine (liveLines (fileOfLines ls)) = Ok olds ->
  snd (find fields (Props []) None (idle w)) = Resolved (Records olds) /\
  exists s,
    insert fields record false (idle w) = (s, Resolved Done) /\
    snd (find fields (Props []) None s) = Resolved (Records (olds ++ [record])) /\
    occurrences record (olds ++ [record]) = S (occurrences record olds) /\
    (~ In record olds -> occurrences record (olds ++ [record]) = 1).
Proof.
  intros Hls Hf Hq Hr Hold.
  split; [now apply (findAll_quiet w (fileOfLines ls))|].
  exists (idle (fst (fs_appendFile w (logLine record false)))).
  destruct (fs_appendFile_quiet w _ (logLine record false) Hq Hf) as [Hf1 Hq1].
  split; [|split; [|split]].
  - rewrite insert_idle_eq.
    now rewrite insertBody_eq.
  - apply (findAll_quiet _ _ _ Hf1 Hq1).
    assert (Hline : logLine record false
                    = fileOfLines [entryLine (record, false)]).
    { reflexivity. }
    rewrite Hline, <- fileOfLines_app, liveLines_fileOfLines.
    + rewrite filter_app, map_app.
      rewrite <- (liveLines_fileOfLines ls Hls). simpl.
      apply mapM_snoc; [exact Hold|].
      unfold parseLine. now destruct Hr as (_ & _ & ->).
    + apply Forall_app. split; [exact Hls|]. constructor; [|constructor].
      now apply (entryLine_clean (record, false)).
  - apply occurrences_snoc.
  - intros Hnew. rewrite occurrences_snoc. f_equal.
    now apply count_occ_not_In.
Qed.

End InsertTheorems.

(** C7, the claim as stated fails: after [insert(ann)] on a log that
    already holds Ann, [find({})] returns her twice. *)
Lemma insert_then_find_twice :
  let w := quietWorld (logOf (RT := miniRuntime) [(ann, false)]) in
  let s := fst (insert (RT := miniRuntime) [] ann false (idle w)) in
  snd (find (RT := miniRuntime) [] (Props []) None s)
  = Resolved (Records [ann; ann]) /\
  occurrences ann [ann; ann] = 2.
Proof. split; reflexivity. Qed.

Lemma insert_then_find_all_witness :
  let w := annBobWorld in
  let s := fst (insert (RT := miniRuntime) [] ann false (idle w)) in
  snd (find (RT := miniRuntime) [] (Props []) None s)
  = Resolved (Records [ann; bob; ann]).
Proof.
  intros w s.
  assert (Hls : Forall (fun l => cleanLine l = true)
                  (map (entryLine (RT := miniRuntime))
                       [(ann, false); (bob, false)]))
    by (repeat constructor).
  assert (Hann : faithful (RT := miniRuntime) ann) by (repeat constructor).
  destruct (insert_then_find_all (RT := miniRuntime) [] ann _ [ann; bob] w
              Hls eq_refl eq_refl Hann eq_refl)
    as [_ [s' (Hs & Hfind & _)]].
  unfold s. rewrite Hs. exact Hfind.
Defined.

(** ** Sorting *)

Section StableSort.
Variable A : Type.
Variable comparefn : A -> A -> Z.

(** The elements the comparator is consistent on. *)
Variable ok : A -> Prop.
Hypothesis antisym : forall a b, ok a -> ok b ->
  (0 < comparefn a b)%Z -> (comparefn b a < 0)%Z.
Hypothesis trans : forall a b c, ok a -> ok b -> ok c ->
  (comparefn a b <= 0)%Z -> (comparefn b c <= 0)%Z -> (comparefn a c <= 0)%Z.

Lemma insertSorted_perm (x : A) (l : list A) :
  Permutation (insertSorted comparefn x l) (x :: l).
Proof.
  induction l as [|y l IH]; simpl; [reflexivity|].
  destruct (0 <? comparefn x y)%Z; [|reflexivity].
  rewrite IH. apply perm_swap.
Qed.

Lemma arraySort_perm (l : list A) : Permutation (arraySort comparefn l) l.
Proof.
  induction l as [|x l IH]; simpl; [reflexivity|].
  rewrite insertSorted_perm. now constructor.
Qed.

Lemma insertSorted_sorted (x : A) (l : list A) :
  ok x -> Forall ok l ->
  StronglySorted (notAfter comparefn) l ->
  StronglySorted (notAfter comparefn) (insertSorted comparefn x l).
Proof.
  intros Hx Hl Hs. induction Hs as [|y l Hs IH Hy]; simpl.
  - repeat constructor.
  - inversion Hl as [|? ? Hoky Hokl]; subst.
    destruct (0 <? comparefn x y)%Z eqn:E.
    + apply Z.ltb_lt in E. constructor; [now apply IH|].
      rewrite (insertSorted_perm x l). constructor; [|exact Hy].
      unfold notAfter. specialize (antisym x y Hx Hoky E). lia.
    + apply Z.ltb_ge in E. constructor; [now constructor|].
      constructor; [exact E|].
      apply Forall_forall. intros z Hz.
      unfold notAfter.
      apply (trans x y z Hx Hoky); [now apply (proj1 (Forall_forall _ _) Hokl)|exact E|].
      now apply (proj1 (Forall_forall _ _) Hy).
Qed.

Lemma arraySort_sorted (l : list A) :
  Forall ok l -> StronglySorted (notAfter comparefn) (arraySort comparefn l).
Proof.
  induction 1 as [|x l Hx Hl IH]; simpl; [constructor|].
  apply insertSorted_sorted; auto.
  apply Forall_forall. intros y Hy.
  apply (Permutation_in _ (arraySort_perm l)) in Hy.
  now apply (proj1 (Forall_forall _ _) Hl).
Qed.

(** Elements the comparator calls equal keep their order. *)
Variable same : A -> A -> bool.
Hypothesis same_compare : forall x a b, ok x -> ok a -> ok b ->
  same x a = true -> same x b = true -> (comparefn a b <= 0)%Z.

Lemma insertSorted_stable (x a : A) (l : list A) :
  ok x -> ok a -> Forall ok l ->
  filter (same x) (insertSorted comparefn a l) = filter (same x) (a :: l).
Proof.
  intros Hx Ha Hl. induction Hl as [|y l Hy Hl IH]; [reflexivity|].
  simpl insertSorted. destruct (0 <? comparefn a y)%Z eqn:E; [|reflexivity].
  apply Z.ltb_lt in E. simpl. simpl in IH. rewrite IH.
  destruct (same x a) eqn:Ea; [|reflexivity].
  destruct (same x y) eqn:Ey; [|reflexivity].
  specialize (same_compare x a y Hx Ha Hy Ea Ey). lia.
Qed.

Lemma arraySort_stable (x : A) (l : list A) :
  ok x -> Forall ok l ->
  filter (same x) (arraySort comparefn l) = filter (same x) l.
Proof.
  intros Hx Hl. induction Hl as [|a l Ha Hl IH]; [reflexivity|].
  simpl arraySort. rewrite insertSorted_stable; auto.
  - simpl. now rewrite IH.
  - apply Forall_forall. intros y Hy.
    apply (Permutation_in _ (arraySort_perm l)) in Hy.
    now apply (proj1 (Forall_forall _ _) Hl).
Qed.

End StableSort.

Lemma string_compare_lt_trans (a b c : string) :
  String.compare a b = Lt -> String.compare b c = Lt -> String.compare a c = Lt.
Proof.
  revert b c. induction a as [|x a IH]; intros [|y b] [|z c]; simpl;
    try discriminate; auto.
  destruct (Ascii.compare x y) eqn:Exy; try discriminate;
    destruct (Ascii.compare y z) eqn:Eyz; try discriminate; intros H1 H2.
  - apply Ascii.compare_eq_iff in Exy, Eyz. subst.
    assert (E : Ascii.compare z z = Eq) by (unfold Ascii.compare; apply N.compare_refl).
    rewrite E. eauto.
  - apply Ascii.compare_eq_iff in Exy. subst. now rewrite Eyz.
  - apply Ascii.compare_eq_iff in Eyz. subst. now rewrite Exy.
  - unfold Ascii.compare in *. rewrite N.compare_lt_iff in *.
    assert (E : (N_of_ascii x ?= N_of_ascii z)%N = Lt)
      by (apply N.compare_lt_iff; lia).
    now rewrite E.
Qed.

Lemma string_compare_refl (a : string) : String.compare a a = Eq.
Proof.
  induction a as [|x a IH]; simpl; [reflexivity|].
  assert (E : Ascii.compare x x = Eq) by (unfold Ascii.compare; apply N.compare_refl).
  now rewrite E.
Qed.

Section ValueOrder.
Context `{RT : JsRuntime}.

Lemma valueCompare_kind (u v : Value) :
  sameKind u v = true -> valueCompare u v = kindCompare u v.
Proof.
  destruct u as [| |?|[|x]|x], v as [| |?|[|y]|y]; try discriminate; intros _;
    unfold valueCompare, greaterThan, lessThan; simpl.
  - rewrite !Z.ltb_compare, (Z.compare_antisym x y).
    now destruct (x ?= y)%Z.
  - unfold String.ltb. rewrite (String.compare_antisym y x).
    now destruct (String.compare x y).
Qed.

Lemma kindCompare_eq (u v : Value) :
  sameKind u v = true -> kindCompare u v = Eq -> u = v.
Proof.
  destruct u as [| |?|[|x]|x], v as [| |?|[|y]|y]; try discriminate; intros _ H;
    simpl in H.
  - apply Z.compare_eq in H. now subst.
  - apply String.compare_eq_iff in H. now subst.
Qed.

Lemma kindCompare_refl (u : Value) : kindCompare u u = Eq.
Proof.
  destruct u as [| |?|[|x]|x]; simpl; auto using Z.compare_refl, string_compare_refl.
Qed.

Lemma kindCompare_antisym (u v : Value) :
  kindCompare v u = CompOpp (kindCompare u v).
Proof.
  destruct u as [| |?|[|x]|x], v as [| |?|[|y]|y]; simpl; auto.
  - apply Z.compare_antisym.
  - apply String.compare_antisym.
Qed.

Lemma kindCompare_lt_trans (u v w : Value) :
  sameKind u v = true -> sameKind v w = true ->
  kindCompare u v = Lt -> kindCompare v w = Lt -> kindCompare u w = Lt.
Proof.
  destruct u as [| |?|[|x]|x], v as [| |?|[|y]|y]; try discriminate;
    destruct w as [| |?|[|z]|z]; try discriminate; intros _ _; simpl.
  - rewrite !Z.compare_lt_iff. lia.
  - apply string_compare_lt_trans.
Qed.

Lemma strictEq_kind (u v : Value) :
  sameKind u v = true -> strictEq u v = true <-> kindCompare u v = Eq.
Proof.
  destruct u as [| |?|[|x]|x], v as [| |?|[|y]|y]; try discriminate; intros _;
    simpl.
  - rewrite Z.eqb_eq, Z.compare_eq_iff. reflexivity.
  - rewrite String.eqb_eq. split.
    + intros ->. apply string_compare_refl.
    + apply String.compare_eq_iff.
  Qed.

End ValueOrder.

Lemma sameKind_sym (u v : Value) : sameKind u v = sameKind v u.
Proof. destruct u as [| |?|[|x]|x], v as [| |?|[|y]|y]; reflexivity. Qed.

Lemma sameKind_trans (u v w : Value) :
  sameKind u v = true -> sameKind v w = true -> sameKind u w = true.
Proof.
  destruct u as [| |?|[|x]|x], v as [| |?|[|y]|y]; try discriminate;
    destruct w as [| |?|[|z]|z]; try discriminate; reflexivity.
Qed.

Lemma comparable_sym (so : SortOption) (a b : Rec) :
  comparable so a b = comparable so b a.
Proof.
  unfold comparable. apply forallb_pointwise. intros kd. apply sameKind_sym.
Qed.

Lemma comparable_trans (so : SortOption) (a b c : Rec) :
  comparable so a b = true -> comparable so b c = true ->
  comparable so a c = true.
Proof.
  unfold comparable. rewrite !forallb_forall. intros H1 H2 kd Hkd.
  eapply sameKind_trans; eauto.
Qed.

Lemma comparable_cons (k : string) (d : Direction) (so : SortOption) (a b : Rec) :
  comparable ((k, d) :: so) a b = true ->
  sameKind (get a k) (get b k) = true /\ comparable so a b = true.
Proof. intros H. now apply andb_true_iff in H. Qed.

Section RecordOrder.
Context `{RT : JsRuntime}.

Lemma compareRecords_cons (k : string) (d : Direction) (so : SortOption)
  (a b : Rec) :
  sameKind (get a k) (get b k) = true ->
  compareRecords ((k, d) :: so) a b
  = match kindCompare (get a k) (get b k) with
    | Lt => (- dirZ d)%Z
    | Gt => dirZ d
    | Eq => compareRecords so a b
    end.
Proof.
  intros H. rewrite <- (valueCompare_kind _ _ H). unfold valueCompare. simpl.
  destruct (lessThan (get a k) (get b k)); [reflexivity|].
  now destruct (greaterThan (get a k) (get b k)).
Qed.

Lemma compareRecords_opp (so : SortOption) (a b : Rec) :
  comparable so a b = true ->
  compareRecords so b a = (- compareRecords so a b)%Z.
Proof.
  induction so as [|[k d] so IH]; intros H; [reflexivity|].
  apply comparable_cons in H as [Hk Hso].
  rewrite (compareRecords_cons k d so a b Hk).
  rewrite (compareRecords_cons k d so b a) by now rewrite sameKind_sym.
  rewrite (kindCompare_antisym (get a k) (get b k)).
  destruct (kindCompare (get a k) (get b k)); simpl; auto; lia.
Qed.

Lemma compareRecords_trans (so : SortOption) (a b c : Rec) :
  comparable so a b = true -> comparable so b c = true ->
  (compareRecords so a b <= 0)%Z -> (compareRecords so b c <= 0)%Z ->
  (compareRecords so a c <= 0)%Z.
Proof.
  induction so as [|[k d] so IH]; intros Hab Hbc; [simpl; lia|].
  apply comparable_cons in Hab as [Kab Hab].
  apply comparable_cons in Hbc as [Kbc Hbc].
  pose proof (sameKind_trans _ _ _ Kab Kbc) as Kac.
  rewrite (compareRecords_cons k d so a b Kab),
          (compareRecords_cons k d so b c Kbc),
          (compareRecords_cons k d so a c Kac).
  destruct (kindCompare (get a k) (get b k)) eqn:E1;
    destruct (kindCompare (get b k) (get c k)) eqn:E2.
  - apply (kindCompare_eq _ _ Kab) in E1. rewrite E1, E2. now apply IH.
  - apply (kindCompare_eq _ _ Kab) in E1. rewrite E1, E2. auto.
  - apply (kindCompare_eq _ _ Kab) in E1. rewrite E1, E2. auto.
  - apply (kindCompare_eq _ _ Kbc) in E2. rewrite <- E2, E1. auto.
  - rewrite (kindCompare_lt_trans _ _ _ Kab Kbc E1 E2). auto.
  - destruct d; simpl; lia.
  - apply (kindCompare_eq _ _ Kbc) in E2. rewrite <- E2, E1. auto.
  - destruct d; simpl; lia.
  - assert (E : kindCompare (get c k) (get a k) = Lt).
    { apply (kindCompare_lt_trans _ (get b k)).
      - now rewrite sameKind_sym.
      - now rewrite sameKind_sym.
      - rewrite kindCompare_antisym, E2. reflexivity.
      - rewrite kindCompare_antisym, E1. reflexivity. }
    rewrite kindCompare_antisym, E. simpl. auto.
Qed.

Lemma tests_kind (u v : Value) :
  sameKind u v = true ->
  lessThan u v = match kindCompare u v with Lt => true | _ => false end /\
  greaterThan u v = match kindCompare u v with Gt => true | _ => false end /\
  strictEq u v = match kindCompare u v with Eq => true | _ => false end.
Proof.
  destruct u as [| |?|[|x]|x], v as [| |?|[|y]|y]; try discriminate; intros _;
    unfold greaterThan, lessThan; simpl.
  - rewrite !Z.ltb_compare, (Z.compare_antisym x y), Z.eqb_compare.
    now destruct (x ?= y)%Z.
  - unfold String.ltb. rewrite (String.compare_antisym y x).
    destruct (String.compare x y) eqn:E; simpl; repeat split.
    + apply String.compare_eq_iff in E. subst. apply String.eqb_refl.
    + apply String.eqb_neq. intros ->. now rewrite string_compare_refl in E.
    + apply String.eqb_neq. intros ->. now rewrite string_compare_refl in E.
Qed.

Lemma precedes_sign (so : SortOption) (a b : Rec) :
  comparable so a b = true ->
  precedes so a b = true <-> (compareRecords so a b < 0)%Z.
Proof.
  induction so as [|[k d] so IH]; intros H.
  - simpl. split; [discriminate|lia].
  - apply comparable_cons in H as [Hk Hso].
    rewrite (compareRecords_cons k d so a b Hk). simpl.
    destruct (tests_kind _ _ Hk) as (-> & -> & ->).
    destruct (kindCompare (get a k) (get b k)); [now apply IH| |];
      destruct d; simpl; split; (lia || discriminate || reflexivity).
Qed.

Lemma equalOnKeys_sign (so : SortOption) (a b : Rec) :
  comparable so a b = true ->
  equalOnKeys so a b = true <-> compareRecords so a b = 0%Z.
Proof.
  induction so as [|[k d] so IH]; intros H.
  - simpl. split; reflexivity.
  - apply comparable_cons in H as [Hk Hso].
    rewrite (compareRecords_cons k d so a b Hk). simpl.
    destruct (tests_kind _ _ Hk) as (_ & _ & ->).
    destruct (kindCompare (get a k) (get b k)); [now apply IH| |];
      destruct d; simpl; split; (lia || discriminate).
Qed.

(** Records equal on the keys hold the same values there. *)
Lemma equalOnKeys_compare (so : SortOption) (x a b : Rec) :
  comparable so x a = true -> equalOnKeys so x a = true ->
  compareRecords so a b = compareRecords so x b.
Proof.
  induction so as [|[k d] so IH]; intros Hc He; [reflexivity|].
  apply comparable_cons in Hc as [Hk Hso].
  simpl in He. apply andb_true_iff in He as [Hek Hes].
  destruct (tests_kind _ _ Hk) as (_ & _ & Hs). rewrite Hs in Hek.
  destruct (kindCompare (get x k) (get a k)) eqn:E; try discriminate.
  apply (kindCompare_eq _ _ Hk) in E. simpl. rewrite <- E.
  now rewrite (IH Hso Hes).
Qed.

End RecordOrder.

Lemma StronglySorted_weaken {A} (R R' : A -> A -> Prop) (l : list A) :
  (forall a b, In a l -> In b l -> R a b -> R' a b) ->
  StronglySorted R l -> StronglySorted R' l.
Proof.
  intros H Hs. induction Hs as [|a l Hs IH Ha]; constructor.
  - apply IH. intros x y Hx Hy. apply H; now right.
  - apply Forall_forall. intros b Hb. apply H; [now left|now right|].
    now apply (proj1 (Forall_forall _ _) Ha).
Qed.

Section SortTheorem.
Context `{RT : JsRuntime}.

(** A stable multi-key sort over the keys as [sort] visits them: on
    records that hold, under every key, values of one kind (finite numbers,
    or strings), [sort] returns the records it was given, reordered so that
    of any two records the earlier one either goes before the later one by
    the first key on which they differ or equals it on all keys; and the
    records equal on all keys to a given one keep their input order. *)
Lemma sort_stable_over_keys (records : list Rec) (sortOption : SortOption) :
  (forall a b, In a records -> In b records ->
               comparable sortOption a b = true) ->
  Permutation (sort records sortOption) records /\
  StronglySorted
    (fun a b => precedes sortOption a b = true \/
                equalOnKeys sortOption a b = true)
    (sort records sortOption) /\
  (forall x, In x records ->
     filter (equalOnKeys sortOption x) (sort records sortOption)
     = filter (equalOnKeys sortOption x) records) /\
  (forall a b, In a records -> In b records ->
     (precedes sortOption a b = true <->
      (compareRecords sortOption a b < 0)%Z) /\
     (equalOnKeys sortOption a b = true <->
      compareRecords sortOption a b = 0%Z) /\
     (precedes sortOption b a = true <->
      (0 < compareRecords sortOption a b)%Z)).
Proof.
  intros Hc. unfold sort.
  pose proof (arraySort_perm _ (compareRecords sortOption) records) as Hperm.
  assert (Hall : Forall (fun a => In a records) records)
    by now apply Forall_forall.
  split; [exact Hperm|]. split; [|split].
  - apply (StronglySorted_weaken (notAfter (compareRecords sortOption))).
    + intros a b Ha Hb Hab.
      apply (Permutation_in _ Hperm) in Ha, Hb. unfold notAfter in Hab.
      destruct (Z.eq_dec (compareRecords sortOption a b) 0) as [E|E].
      * right. now apply equalOnKeys_sign; auto.
      * left. apply precedes_sign; auto. lia.
    + apply (arraySort_sorted _ _ (fun a => In a records)); [| |exact Hall].
      * intros a b Ha Hb H. rewrite (compareRecords_opp _ a b); auto. lia.
      * intros a b c Ha Hb Hc'. apply compareRecords_trans; auto.
  - intros x Hx.
    apply (arraySort_stable _ _ (fun a => In a records)); auto.
    intros y a b Hy Ha Hb Hya Hyb.
    rewrite (equalOnKeys_compare _ y a b); auto.
    apply equalOnKeys_sign in Hyb; auto. lia.
  - intros a b Ha Hb. split; [apply precedes_sign; auto|].
    split; [apply equalOnKeys_sign; auto|].
    rewrite precedes_sign by auto.
    rewrite (compareRecords_opp _ a b) by auto. lia.
Qed.

End SortTheorem.

Lemma filter_no_index {V} (written : list (string * V)) :
  (forall kv, In kv written -> arrayIndex (fst kv) = None) ->
  filter isIndexKey written = [] /\
  filter (fun kv => negb (isIndexKey kv)) written = written.
Proof.
  intros H. induction written as [|kv written IH]; [auto|].
  assert (Hkv : isIndexKey kv = false)
    by (unfold isIndexKey; now rewrite (H kv (or_introl eq_refl))).
  destruct IH as [IH1 IH2]; [intros x Hx; apply H; now right|].
  simpl. rewrite Hkv. simpl. rewrite IH1, IH2. auto.
Qed.

Lemma forInOrder_perm {V} (written : list (string * V)) :
  Permutation (forInOrder written) written.
Proof.
  unfold forInOrder. rewrite arraySort_perm.
  induction written as [|kv written IH]; [reflexivity|].
  simpl. destruct (isIndexKey kv); simpl.
  - now constructor.
  - rewrite <- IH at 3. apply Permutation_sym, Permutation_middle.
Qed.

Section SortAmended.
Context `{RT : JsRuntime}.

(** C9, as amended: with the keys of the sort option taken in the order
    [for in] enumerates them (array indices first, ascending, then the
    others in insertion order, which is the insertion order of all keys
    when none is an array index), and on records that hold under every sort
    key values of one kind (finite numbers, or strings), [sort] is a stable
    multi-key sort: it permutes the records; of any two records of the
    result the earlier one either goes before the later one by the first key
    on which they differ (smaller first for [1], greater first for [-1]) or
    equals it on all keys; and the records equal on all keys to a given one
    keep their input order. *)
Theorem sort_by_enumerated_keys (records : list Rec)
  (written : list (string * Direction)) :
  let keys := forInOrder written in
  (forall a b, In a records -> In b records -> comparable keys a b = true) ->
  Permutation keys written /\
  ((forall kd, In kd written -> arrayIndex (fst kd) = None) -> keys = written) /\
  Permutation (sort records keys) records /\
  StronglySorted
    (fun a b => precedes keys a b = true \/ equalOnKeys keys a b = true)
    (sort records keys) /\
  (forall x, In x records ->
     filter (equalOnKeys keys x) (sort records keys)
     = filter (equalOnKeys keys x) records) /\
  (forall a b, In a records -> In b records ->
     (precedes keys a b = true <-> (compareRecords keys a b < 0)%Z) /\
     (equalOnKeys keys a b = true <-> compareRecords keys a b = 0%Z) /\
     (precedes keys b a = true <-> (0 < compareRecords keys a b)%Z)).
Proof.
  intros keys Hc.
  split; [apply forInOrder_perm|]. split.
  - intros Hno. unfold keys, forInOrder.
    now destruct (filter_no_index written Hno) as [-> ->].
  - now apply sort_stable_over_keys.
Qed.

End SortAmended.

(** C9, the claim as stated fails.  The sort option written [{b: 1, 1: 1}]
    is enumerated with the key [1] first, so of two records the one smaller
    on [1] comes first although the other is smaller on [b], the key
    inserted first.  And with the key [n], a record that lacks [n] compares
    equal to every record, so [{n: 3}], [{}], [{n: 1}] stay in that order,
    3 before 1. *)
Lemma sort_claim_fails :
  let written := [("b", Asc); ("1", Asc)] in
  let r1 : Rec := [("b", VNum (Finite 1)); ("1", VNum (Finite 2))] in
  let r2 : Rec := [("b", VNum (Finite 2)); ("1", VNum (Finite 1))] in
  let three : Rec := [("n", VNum (Finite 3))] in
  let one : Rec := [("n", VNum (Finite 1))] in
  (forInOrder written = [("1", Asc); ("b", Asc)] /\
   precedes (RT := miniRuntime) written r1 r2 = true /\
   sort (RT := miniRuntime) [r1; r2] (forInOrder written) = [r2; r1]) /\
  (forInOrder [("n", Asc)] = [("n", Asc)] /\
   precedes (RT := miniRuntime) [("n", Asc)] one three = true /\
   sort (RT := miniRuntime) [three; []; one] (forInOrder [("n", Asc)])
   = [three; []; one]).
Proof. repeat split; reflexivity. Qed.

Lemma sort_by_enumerated_keys_witness :
  let cat : Rec := [("name", VStr "Cat"); ("age", VNum (Finite 25))] in
  sort (RT := miniRuntime) [ann; bob; cat] (forInOrder [("age", Asc)])
  = [bob; cat; ann] /\
  Permutation (sort (RT := miniRuntime) [ann; bob; cat]
                    (forInOrder [("age", Asc)]))
              [ann; bob; cat].
Proof.
  intro cat. split; [reflexivity|].
  apply (sort_by_enumerated_keys (RT := miniRuntime) [ann; bob; cat]
           [("age", Asc)]).
  intros a b [<-|[<-|[<-|[]]]] [<-|[<-|[<-|[]]]]; reflexivity.
Defined.

(** ** The scenario of the specification

    The log holds Ann (30) and Bob (25), both live. *)

Example scenario_find_older :
  snd (find (RT := miniRuntime) []
         (Props [("age", Some (CondGt (VNum (Finite 26))))]) None
         (idle annBobWorld))
  = Resolved (Records [ann]).
Proof. reflexivity. Qed.

Example scenario_find_sorted :
  snd (find (RT := miniRuntime) [] (Props [])
         (Some (mkOptions (Some [("age", Asc)]) None)) (idle annBobWorld))
  = Resolved (Records [bob; ann]).
Proof. reflexivity. Qed.

Example scenario_find_projected :
  snd (find (RT := miniRuntime) [] (Props [])
         (Some (mkOptions (Some [("age", Desc)]) (Some ["name"])))
         (idle annBobWorld))
  = Resolved (Records [[("name", VStr "Ann")]; [("name", VStr "Bob")]]).
Proof. reflexivity. Qed.

Example scenario_delete_bob :
  let s := fst (delete (RT := miniRuntime) [] isBob (idle annBobWorld)) in
  snd (find (RT := miniRuntime) [] (Props []) None s) = Resolved (Records [ann]).
Proof. reflexivity. Qed.

(** * Further properties of the code *)

(** ** Conditions *)

Lemma sameValueZero_eq (a b : Value) : sameValueZero a b = true <-> a = b.
Proof.
  destruct a as [| |x|[|x]|x], b as [| |y|[|y]|y]; simpl;
    try (split; [discriminate|congruence]); try tauto.
  - destruct x, y; simpl; split; congruence.
  - rewrite Z.eqb_eq. split; congruence.
  - rewrite String.eqb_eq. split; congruence.
Qed.

Lemma strictEq_eq (a b : Value) :
  strictEq a b = true <-> a = b /\ a <> VNum NaN.
Proof.
  destruct a as [| |x|[|x]|x], b as [| |y|[|y]|y]; simpl;
    try (split; [discriminate|intros [? ?]; congruence]);
    try (split; [split; congruence|reflexivity]).
  - destruct x, y; simpl; split; try discriminate; try (intros [? ?]; congruence);
      split; congruence.
  - rewrite Z.eqb_eq. split; [intros ->; split; congruence|intros [? ?]; congruence].
  - rewrite String.eqb_eq. split; [intros ->; split; congruence|intros [? ?]; congruence].
Qed.

Section ConditionFacts.
Context `{RT : JsRuntime}.

(** X1: a [$in] condition matches a value exactly when the value is in the
    list, [NaN] included, and an [$eq] condition matches exactly when the
    value is the operand and is not [NaN]: [{$in: [NaN]}] finds the [NaN]
    that [{$eq: NaN}] misses. *)
Theorem in_and_eq_conditions (v x : Value) (l : list Value) :
  (matchesCondition v (Some (CondIn l)) = Some true <-> In v l) /\
  (matchesCondition v (Some (CondEq x)) = Some true <->
   v = x /\ v <> VNum NaN) /\
  matchesCondition (VNum NaN) (Some (CondIn [VNum NaN])) = Some true /\
  matchesCondition (VNum NaN) (Some (CondEq (VNum NaN))) = Some false.
Proof.
  split; [|split; [|split; reflexivity]].
  - simpl. unfold includes. split.
    + intros [= H]. apply existsb_exists in H as [y [Hy Hyv]].
      apply sameValueZero_eq in Hyv. now subst.
    + intros H. f_equal. apply existsb_exists. exists v.
      split; [exact H|now apply sameValueZero_eq].
  - simpl. rewrite <- strictEq_eq. split; [now intros [= ->]|now intros ->].
Qed.

Lemma number_less_asym (m n : JsNumber) :
  match m, n with Finite x, Finite y => Z.ltb x y | _, _ => false end = true ->
  match n, m with Finite x, Finite y => Z.ltb x y | _, _ => false end = false.
Proof.
  destruct m as [|x], n as [|y]; try discriminate.
  rewrite Z.ltb_lt, Z.ltb_ge. lia.
Qed.

Lemma lessThan_asym (a b : Value) : lessThan a b = true -> lessThan b a = false.
Proof.
  destruct a as [| |x|x|x], b as [| |y|y|y];
    match goal with
    | |- lessThan ?a ?b = true -> _ =>
        try exact (number_less_asym (ToNumber a) (ToNumber b))
    end.
  simpl. unfold String.ltb. rewrite (String.compare_antisym x y).
  now destruct (String.compare y x).
Qed.
End ConditionFacts.

Lemma get_missing (record : Rec) (f : string) :
  hasKey record f = false -> get record f = VUndefined.
Proof.
  induction record as [|[k v] record IH]; simpl; [reflexivity|].
  intros H. apply orb_false_iff in H as [Hk Hrest]. rewrite Hk. auto.
Qed.

Lemma getCondition_NoDup (props : PropertyQuery) (k : string)
  (c : option Condition) :
  NoDup (map fst props) -> In (k, c) props -> getCondition props k = c.
Proof.
  induction props as [|[k' c'] props IH]; simpl; [tauto|].
  intros Hnd Hin. inversion Hnd as [|? ? Hk' Hrest]; subst.
  destruct Hin as [[= -> ->]|Hin].
  - now rewrite String.eqb_refl.
  - destruct (String.eqb k' k) eqn:E; [|auto].
    apply String.eqb_eq in E. subst. exfalso. apply Hk'.
    change k with (fst (k, c)). now apply in_map.
Qed.

Section PropertyFacts.
Context `{RT : JsRuntime}.
Variable fields : list string.

Lemma single_property (record : Rec) (f : string) (c : option Condition) :
  matchesPropertyQuery record [(f, c)]
  = truthy (matchesCondition (get record f) c).
Proof.
  unfold matchesPropertyQuery. simpl. rewrite String.eqb_refl.
  apply andb_true_r.
Qed.

Lemma matchesPropertyQuery_iff (record : Rec) (props : PropertyQuery) :
  NoDup (map fst props) ->
  matchesPropertyQuery record props = true <->
  forall k c, In (k, c) props -> matchesCondition (get record k) c = Some true.
Proof.
  intros Hnd. unfold matchesPropertyQuery, getObjectKeys.
  rewrite forallb_forall. split.
  - intros H k c Hin.
    specialize (H k (in_map fst _ _ Hin)).
    rewrite (getCondition_NoDup props k c Hnd Hin) in H.
    destruct (matchesCondition (get record k) c) as [[|]|]; simpl in H;
      congruence.
  - intros H k Hk. apply in_map_iff in Hk as [[k' c] [<- Hin]]. simpl.
    rewrite (getCondition_NoDup props k' c Hnd Hin), (H k' c Hin).
    reflexivity.
Qed.

(** X2: a property query (an object, so no key twice) matches a record
    exactly when every one of its conditions answers [true] on the record's
    value of that field; in particular the query [{}] matches every
    record. *)
Theorem property_query_is_conjunction (record : Rec) (props : PropertyQuery) :
  NoDup (map fst props) ->
  (matchesQuery fields record (Props props) = Ok true <->
   forall k c, In (k, c) props ->
               matchesCondition (get record k) c = Some true) /\
  matchesQuery fields record (Props []) = Ok true.
Proof.
  intros Hnd. split; [|reflexivity]. simpl.
  rewrite <- (matchesPropertyQuery_iff record props Hnd).
  split; [now intros [= ->]|now intros ->].
Qed.

(** X3: a property whose condition is [undefined], or is an object with
    none of [$eq], [$gt], [$lt], [$in], makes the property query fail on
    every record. *)
Theorem useless_condition_matches_nothing (record : Rec) (props : PropertyQuery)
  (k : string) (c : option Condition) :
  NoDup (map fst props) -> In (k, c) props ->
  c = None \/ c = Some emptyCondition ->
  matchesQuery fields record (Props props) = Ok false.
Proof.
  intros Hnd Hin Hc. simpl. f_equal. apply not_true_is_false. intros H.
  pose proof (proj1 (matchesPropertyQuery_iff record props Hnd) H k c Hin)
    as Hk.
  destruct Hc as [->| ->]; discriminate.
Qed.

(** X4: no value is both greater and smaller than an operand, and none is
    greater than itself: the two conditions [$gt: x] and [$lt: x] on one
    field, joined by [$and], match no record. *)
Theorem gt_and_lt_exclude (record : Rec) (f : string) (x : Value) :
  (forall v, matchesCondition v (Some (CondGt x)) = Some true ->
             matchesCondition v (Some (CondLt x)) = Some false) /\
  matchesCondition x (Some (CondGt x)) = Some false /\
  matchesQuery fields record
    (And [Props [(f, Some (CondGt x))]; Props [(f, Some (CondLt x))]])
  = Ok false.
Proof.
  assert (Hex : forall v, greaterThan v x = true -> lessThan v x = false).
  { intros v H. now apply lessThan_asym. }
  split; [|split].
  - simpl. intros v [= H]. now rewrite (Hex v H).
  - simpl. f_equal. unfold greaterThan.
    destruct (lessThan x x) eqn:E; [|reflexivity].
    now rewrite (lessThan_asym x x E) in E.
  - simpl. rewrite !single_property. simpl.
    destruct (greaterThan (get record f) x) eqn:E; [|reflexivity].
    now rewrite (Hex _ E).
Qed.

(** X5: a record that has no field [f] matches neither [{f: {$gt: x}}] nor
    [{f: {$lt: x}}], whatever [x]; it matches [{f: {$eq: x}}] only for
    [x = undefined] and [{f: {$in: l}}] only if [undefined] is in [l]. *)
Theorem missing_field_conditions (record : Rec) (f : string) (x : Value)
  (l : list Value) :
  hasKey record f = false ->
  matchesQuery fields record (Props [(f, Some (CondGt x))]) = Ok false /\
  matchesQuery fields record (Props [(f, Some (CondLt x))]) = Ok false /\
  (matchesQuery fields record (Props [(f, Some (CondEq x))]) = Ok true <->
   x = VUndefined) /\
  (matchesQuery fields record (Props [(f, Some (CondIn l))]) = Ok true <->
   In VUndefined l).
Proof.
  intros H. apply get_missing in H. simpl. rewrite !single_property, H.
  simpl. repeat split.
  - f_equal. unfold greaterThan, lessThan.
    destruct x as [| |b|n|s]; simpl; try reflexivity;
      [now destruct n|now destruct (StringToNumber s)].
  - intros [= E]. now destruct x.
  - now intros ->.
  - intros [= E]. unfold includes in E.
    apply existsb_exists in E as [y [Hy E]].
    apply sameValueZero_eq in E. now subst.
  - intros Hin. f_equal. unfold includes. apply existsb_exists.
    exists VUndefined. split; [exact Hin|reflexivity].
Qed.

End PropertyFacts.

Lemma in_and_eq_conditions_witness :
  matchesCondition (RT := miniRuntime) (VStr "Ann")
    (Some (CondIn [VStr "Bob"; VStr "Ann"])) = Some true.
Proof.
  apply (proj1 (in_and_eq_conditions (RT := miniRuntime) (VStr "Ann") VNull
                  [VStr "Bob"; VStr "Ann"])).
  right. left. reflexivity.
Defined.

Lemma property_query_is_conjunction_witness :
  matchesQuery (RT := miniRuntime) [] ann
    (Props [("name", Some (CondEq (VStr "Ann")));
            ("age", Some (CondGt (VNum (Finite 26))))])
  = Ok true.
Proof.
  assert (Hnd : NoDup (map fst
                  [("name", Some (CondEq (VStr "Ann")));
                   ("age", Some (CondGt (VNum (Finite 26))))]))
    by (repeat constructor; simpl; intuition congruence).
  apply (proj1 (property_query_is_conjunction (RT := miniRuntime) [] ann _ Hnd)).
  intros k c [[= <- <-]|[[= <- <-]|[]]]; reflexivity.
Defined.

Lemma useless_condition_matches_nothing_witness :
  matchesQuery (RT := miniRuntime) [] ann
    (Props [("name", Some (CondEq (VStr "Ann"))); ("age", Some emptyCondition)])
  = Ok false.
Proof.
  apply (useless_condition_matches_nothing (RT := miniRuntime) [] ann _
           "age" (Some emptyCondition)).
  - repeat constructor; simpl; intuition congruence.
  - right. left. reflexivity.
  - right. reflexivity.
Defined.

Lemma gt_and_lt_exclude_witness :
  matchesCondition (RT := miniRuntime) (VNum (Finite 30))
    (Some (CondLt (VNum (Finite 26)))) = Some false.
Proof.
  apply (proj1 (gt_and_lt_exclude (RT := miniRuntime) [] ann "age"
                  (VNum (Finite 26)))).
  reflexivity.
Defined.

Lemma missing_field_conditions_witness :
  matchesQuery (RT := miniRuntime) [] ann
    (Props [("city", Some (CondLt (VStr "Z")))]) = Ok false.
Proof.
  apply (missing_field_conditions (RT := miniRuntime) [] ann "city"
           (VStr "Z") []).
  reflexivity.
Defined.

(** ** Combinators *)

Lemma every_app {A} (f : A -> Result bool) (l1 l2 : list A) :
  every f (l1 ++ l2)
  = (b <- every f l1 ;; if b then every f l2 else Ok false).
Proof.
  induction l1 as [|a l1 IH]; simpl; [reflexivity|].
  destruct (f a) as [[|]|e]; simpl; auto.
Qed.

Lemma some_app {A} (f : A -> Result bool) (l1 l2 : list A) :
  some f (l1 ++ l2)
  = (b <- some f l1 ;; if b then Ok true else some f l2).
Proof.
  induction l1 as [|a l1 IH]; simpl; [reflexivity|].
  destruct (f a) as [[|]|e]; simpl; auto.
Qed.

Section CombinatorFacts.
Context `{RT : JsRuntime}.
Variable fields : list string.

(** X6: [{$and: []}] matches every record and [{$or: []}] none; a
    combinator over one subquery answers as that subquery does; and nesting
    is flattening: [$and] of two [$and]s is the [$and] of all their
    subqueries, likewise for [$or], with the same answer or the same
    throw. *)
Theorem combinator_laws (record : Rec) :
  matchesQuery fields record (And []) = Ok true /\
  matchesQuery fields record (Or []) = Ok false /\
  (forall q, matchesQuery fields record (And [q])
             = matchesQuery fields record q) /\
  (forall q, matchesQuery fields record (Or [q])
             = matchesQuery fields record q) /\
  (forall l1 l2, matchesQuery fields record (And [And l1; And l2])
                 = matchesQuery fields record (And (l1 ++ l2))) /\
  (forall l1 l2, matchesQuery fields record (Or [Or l1; Or l2])
                 = matchesQuery fields record (Or (l1 ++ l2))).
Proof.
  repeat split; intros; simpl.
  - now destruct (matchesQuery fields record q) as [[|]|e].
  - now destruct (matchesQuery fields record q) as [[|]|e].
  - rewrite every_app.
    destruct (every (matchesQuery fields record) l1) as [[|]|e]; simpl; auto.
    now destruct (every (matchesQuery fields record) l2) as [[|]|e].
  - rewrite some_app.
    destruct (some (matchesQuery fields record) l1) as [[|]|e]; simpl; auto.
    now destruct (some (matchesQuery fields record) l2) as [[|]|e].
Qed.

(** X7: [$and] stops at its first subquery that does not match and [$or]
    at its first that matches, wherever it stands in the list: when the
    subqueries before it all match (for [$and]) or all fail to match (for
    [$or]), what follows it is not evaluated, not even a subquery that would
    throw; and the first subquery that throws, the ones before it not having
    decided, makes the combinator throw. *)
Theorem combinators_short_circuit (record : Rec) (before : list Query)
  (q : Query) (rest : list Query) :
  ((forall p, In p before -> matchesQuery fields record p = Ok true) ->
   matchesQuery fields record q = Ok false ->
   matchesQuery fields record (And (before ++ q :: rest)) = Ok false) /\
  ((forall p, In p before -> matchesQuery fields record p = Ok false) ->
   matchesQuery fields record q = Ok true ->
   matchesQuery fields record (Or (before ++ q :: rest)) = Ok true) /\
  (forall e,
     (forall p, In p before -> matchesQuery fields record p = Ok true) ->
     matchesQuery fields record q = Throw e ->
     matchesQuery fields record (And (before ++ q :: rest)) = Throw e) /\
  (forall e,
     (forall p, In p before -> matchesQuery fields record p = Ok false) ->
     matchesQuery fields record q = Throw e ->
     matchesQuery fields record (Or (before ++ q :: rest)) = Throw e).
Proof.
  assert (Hevery : forall l,
            (forall p, In p l -> matchesQuery fields record p = Ok true) ->
            every (matchesQuery fields record) l = Ok true).
  { intros l H. now apply every_true_iff. }
  assert (Hsome : forall l,
            (forall p, In p l -> matchesQuery fields record p = Ok false) ->
            some (matchesQuery fields record) l = Ok false).
  { induction l as [|a l IH]; intros H; [reflexivity|].
    simpl. rewrite (H a (or_introl eq_refl)). simpl. apply IH.
    intros p Hp. apply H. now right. }
  repeat split.
  - intros Hb Hq. simpl. rewrite every_app, (Hevery before Hb). simpl.
    now rewrite Hq.
  - intros Hb Hq. simpl. rewrite some_app, (Hsome before Hb). simpl.
    now rewrite Hq.
  - intros e Hb Hq. simpl. rewrite every_app, (Hevery before Hb). simpl.
    now rewrite Hq.
  - intros e Hb Hq. simpl. rewrite some_app, (Hsome before Hb). simpl.
    now rewrite Hq.
Qed.

End CombinatorFacts.

Lemma combinators_short_circuit_witness :
  matchesQuery (RT := miniRuntime) ["title"] ann
    (And [Props []; Props [("age", Some (CondLt (VNum (Finite 0))))]; Text "x"])
  = Ok false.
Proof.
  apply (proj1 (combinators_short_circuit (RT := miniRuntime) ["title"] ann
                  [Props []]
                  (Props [("age", Some (CondLt (VNum (Finite 0))))])
                  [Text "x"])).
  - intros p [<-|[]]. reflexivity.
  - reflexivity.
Defined.

(** ** Full-text queries *)

Lemma split_not_nil (sep : ascii) (s : string) : Str.split sep s <> [].
Proof.
  destruct s as [|c s]; simpl; [discriminate|].
  destruct (Ascii.eqb c sep); [discriminate|].
  destruct (Str.split sep s); discriminate.
Qed.

Lemma filterM_throws {A} (f : A -> Result bool) (l : list A) (e : Error) :
  (forall a, In a l -> (exists b, f a = Ok b) \/ f a = Throw e) ->
  (exists a, In a l /\ f a = Throw e) ->
  filterM f l = Throw e.
Proof.
  induction l as [|a l IH]; intros Hall [x [Hx Hfx]]; [destruct Hx|].
  simpl. destruct (Hall a (or_introl eq_refl)) as [[b Hb]|Ha].
  - rewrite Hb. simpl. destruct Hx as [->|Hx]; [congruence|].
    rewrite IH; [reflexivity| |eauto].
    intros y Hy. apply Hall. now right.
  - now rewrite Ha.
Qed.

Section TextFacts.
Context `{RT : JsRuntime}.
Variable fields : list string.

Lemma fieldWords_not_string (record : Rec) (keys : list string) :
  textFieldsAreStrings keys record = false ->
  mapM (fieldWords record) keys = Throw TypeError.
Proof.
  unfold textFieldsAreStrings.
  induction keys as [|key keys IH]; simpl; [discriminate|].
  intros H. unfold fieldWords at 1.
  destruct (get record key) as [| |b|n|s]; try reflexivity.
  simpl in H. simpl. now rewrite (IH H).
Qed.

Lemma text_query_outcome (record : Rec) (text : string) :
  (exists b, matchesQuery fields record (Text text) = Ok b) \/
  matchesQuery fields record (Text text) = Throw TypeError.
Proof.
  simpl. destruct (textFieldsAreStrings fields record) eqn:E.
  - left. rewrite (matchesText_string _ _ _ E). eauto.
  - right. unfold matchesText. now rewrite (fieldWords_not_string _ _ E).
Qed.

(** X8: a full-text query throws a [TypeError] on every record in which a
    configured full-text field is missing or holds something else than a
    string, whatever the search string; so when the log holds one such live
    record, [find] and [delete] with a full-text query are rejected with
    that error, and [delete] has then read the file and done nothing
    else. *)
Theorem text_query_type_error (w w1 : World) (records : list Rec)
  (text : string) (options : option QueryOptions) :
  getRecords w = (w1, Resolved records) ->
  (exists r, In r records /\ textFieldsAreStrings fields r = false) ->
  (forall r, textFieldsAreStrings fields r = false ->
             matchesQuery fields r (Text text) = Throw TypeError) /\
  find fields (Text text) options (idle w)
  = (mkSys w1 [] false, Rejected TypeError) /\
  delete fields (Text text) (idle w) = (mkSys w1 [] false, Rejected TypeError) /\
  file w1 = file w /\ calls w1 = calls w ++ [ReadFile].
Proof.
  intros Hg [r [Hr Hbad]].
  assert (Hthrow : forall r0, textFieldsAreStrings fields r0 = false ->
                     matchesQuery fields r0 (Text text) = Throw TypeError).
  { intros r0 H0. simpl. unfold matchesText.
    now rewrite (fieldWords_not_string _ _ H0). }
  split; [exact Hthrow|].
  destruct (getRecords_resolved_file _ _ _ Hg) as (Hc & Hf & _ & _).
  split; [|split; [|auto]].
  - rewrite find_idle_eq.
    unfold findBody. rewrite Hg.
    rewrite (filterM_throws _ records TypeError); [reflexivity| |eauto].
    intros a _. apply text_query_outcome.
  - rewrite delete_idle_eq.
    unfold deleteBody. rewrite Hg. unfold filterMatching.
    rewrite (filterM_throws _ (withIdentity records) TypeError); [reflexivity| |].
    + intros a _. apply text_query_outcome.
    + rewrite <- (withIdentity_snd records) in Hr.
      apply in_map_iff in Hr as [x [Hx Hin]]. exists x.
      split; [exact Hin|]. rewrite Hx. auto.
Qed.

End TextFacts.

(** X9: on a collection configured with no full-text field, a full-text
    query matches no record, whatever the search string (the empty one
    included). *)
Theorem text_query_without_fields `{RT : JsRuntime} (record : Rec)
  (text : string) :
  matchesQuery [] record (Text text) = Ok false.
Proof.
  simpl. unfold matchesText. simpl. f_equal.
  destruct (Str.split Str.space (Str.toLowerCase text)) eqn:E; [|reflexivity].
  now apply split_not_nil in E.
Qed.

Lemma text_query_type_error_witness :
  let untitled : Rec := [("name", VStr "Cat")] in
  let w := quietWorld (logOf (RT := miniRuntime)
                         [(untitled, false)]) in
  delete (RT := miniRuntime) ["title"] (Text "cat") (idle w)
  = (mkSys (mkWorld (file w) [] [ReadFile]) [] false, Rejected TypeError).
Proof.
  intros untitled w.
  refine (proj1 (proj2 (proj2
            (text_query_type_error (RT := miniRuntime) ["title"] w
               (mkWorld (file w) [] [ReadFile]) [untitled] "cat" None
               eq_refl _)))).
  exists untitled. split; [now left|reflexivity].
Defined.

(** ** The collection handle: further behaviour *)

Section HandleFacts.
Context `{RT : JsRuntime}.
Variable fields : list string.

Lemma find_idle (query : Query) (options : option QueryOptions) (w : World) :
  world (fst (find fields query options (idle w)))
  = fst (findBody fields query options w) /\
  snd (find fields query options (idle w))
  = snd (findBody fields query options w).
Proof.
  rewrite find_idle_eq.
  destruct (findBody fields query options w) as [w1 [a|e|e|]]; auto.
Qed.

Lemma findBody_shape (query : Query) (options : option QueryOptions)
  (w : World) :
  snd (findBody fields query options w)
  = onRecords (shape options) (snd (findBody fields query None w)).
Proof.
  unfold findBody. destruct (getRecords w) as [w1 [records|e|e|]];
    try reflexivity.
  destruct (filterM _ records) as [found|e]; [|reflexivity].
  destruct options as [[[so|] [p|]]|]; reflexivity.
Qed.

(** X10: the options of [find] only shape its answer: with any sort and
    projection, [find] ends as it does without options (same rejection, same
    world), and resolves to the records found without options, sorted then
    projected; the sort permutes them and the projection keeps their number
    and order, so no option changes which records are returned. *)
Theorem find_options_only_shape (query : Query) (options : option QueryOptions)
  (w : World) :
  snd (find fields query options (idle w))
  = onRecords (shape options) (snd (find fields query None (idle w))) /\
  world (fst (find fields query options (idle w)))
  = world (fst (find fields query None (idle w))) /\
  (forall records sortOption projection,
      Permutation (sort records sortOption) records /\
      shape (Some (mkOptions (Some sortOption) (Some projection))) records
      = map (fun x => project x projection) (sort records sortOption) /\
      List.length (shape options records) = List.length records).
Proof.
  destruct (find_idle query options w) as [Hw Ho].
  destruct (find_idle query None w) as [Hw0 Ho0].
  split; [|split].
  - rewrite Ho, Ho0. apply findBody_shape.
  - rewrite Hw, Hw0, !findBody_world. reflexivity.
  - intros records so p. split; [apply arraySort_perm|]. split; [reflexivity|].
    unfold shape.
    destruct options as [[[so'|] [p'|]]|]; rewrite ?length_map;
      try reflexivity; apply Permutation_length, arraySort_perm.
Qed.

(** X11: the [find] of exercise 13 and the [find] of exercise 15 called
    without options on a collection nobody else is using do the same: same
    call to the file system, same records or same failure. *)
Theorem exercise13_find_agrees (query : Query) (w : World) :
  world (fst (find fields query None (idle w)))
  = fst (Exercise13.find fields query w) /\
  snd (find fields query None (idle w))
  = asAnswer (snd (Exercise13.find fields query w)).
Proof.
  destruct (find_idle query None w) as [-> ->].
  unfold findBody, Exercise13.find.
  destruct (getRecords w) as [w1 [records|e|e|]]; auto.
  destruct (filterM _ records); auto.
Qed.

(** X12: on a collection whose file does not exist, [find] and [delete]
    are rejected with the [ENOENT] of the read and create nothing, while
    [insert] creates the file with its one line. *)
Theorem missing_file (query : Query) (options : option QueryOptions)
  (record : Rec) (asDeleted : bool) (w : World) :
  file w = None -> faults w = [] ->
  find fields query options (idle w)
  = (idle (mkWorld None [] (calls w ++ [ReadFile])), Rejected (IOError ENOENT)) /\
  delete fields query (idle w)
  = (idle (mkWorld None [] (calls w ++ [ReadFile])), Rejected (IOError ENOENT)) /\
  insert fields record asDeleted (idle w)
  = (idle (mkWorld (Some (logLine record asDeleted)) []
                   (calls w ++ [AppendFile (logLine record asDeleted)])),
     Resolved Done).
Proof.
  intros Hf Hq.
  assert (Hg : getRecords w
               = (mkWorld None [] (calls w ++ [ReadFile]),
                  Rejected (IOError ENOENT))).
  { unfold getRecords, fs_readFile, issue. rewrite Hq. simpl. now rewrite Hf. }
  split; [|split].
  - rewrite find_idle_eq.
    unfold findBody. now rewrite Hg.
  - rewrite delete_idle_eq.
    unfold deleteBody. now rewrite Hg.
  - rewrite insert_idle_eq.
    unfold insertBody, fs_appendFile, issue. rewrite Hq. simpl.
    now rewrite Hf.
Qed.

End HandleFacts.

Lemma logOf_app `{RT : JsRuntime} (a b : list (Rec * bool)) :
  logOf (a ++ b) = (logOf a ++ logOf b)%string.
Proof.
  induction a as [|e a IH]; [reflexivity|].
  change (logOf ((e :: a) ++ b))
    with (logLine (fst e) (snd e) ++ logOf (a ++ b))%string.
  change (logOf (e :: a)) with (logLine (fst e) (snd e) ++ logOf a)%string.
  now rewrite IH, append_assoc.
Qed.

Section LogFacts.
Context `{RT : JsRuntime}.
Variable fields : list string.

Lemma find_quiet (query : Query) (options : option QueryOptions) (w : World)
  (data : string) :
  file w = Some data -> faults w = [] ->
  snd (find fields query options (idle w))
  = match mapM parseLine (liveLines data) with
    | Throw e => Uncaught e
    | Ok records =>
        match filterM (fun x => matchesQuery fields x query) records with
        | Throw e => Rejected e
        | Ok found => Resolved (Records (shape options found))
        end
    end.
Proof.
  intros Hf Hq. rewrite (proj2 (find_idle fields query options w)).
  unfold findBody, getRecords, fs_readFile, issue. rewrite Hq. simpl.
  rewrite Hf. destruct (mapM parseLine (liveLines data)); [|reflexivity].
  destruct (filterM _ a); [|reflexivity].
  destruct options as [[[so|] [p|]]|]; reflexivity.
Qed.

Lemma insert_quiet (record : Rec) (asDeleted : bool) (w : World)
  (data : string) :
  file w = Some data -> faults w = [] ->
  insert fields record asDeleted (idle w)
  = (idle (mkWorld (Some (data ++ logLine record asDeleted)%string) []
                   (calls w ++ [AppendFile (logLine record asDeleted)])),
     Resolved Done).
Proof.
  intros Hf Hq. rewrite insert_idle_eq.
  unfold insertBody, fs_appendFile, issue. rewrite Hq. simpl. now rewrite Hf.
Qed.

(** X13: a file that is empty or holds only white space reads as no
    record: every [find] resolves to the empty sequence, and [delete]
    resolves with nothing to re-append, leaving the file empty. *)
Theorem blank_log (query : Query) (options : option QueryOptions) (w : World)
  (data : string) :
  file w = Some data -> faults w = [] -> Str.trim data = EmptyString ->
  snd (find fields query options (idle w)) = Resolved (Records []) /\
  delete fields query (idle w)
  = (idle (mkWorld (Some EmptyString) [] (calls w ++ [ReadFile; Truncate])),
     Resolved Done).
Proof.
  intros Hf Hq Ht.
  assert (Hl : liveLines data = []) by (unfold liveLines; now rewrite Ht).
  split.
  - rewrite (find_quiet query options w data Hf Hq), Hl. simpl.
    now destruct options as [[[so|] [p|]]|].
  - rewrite delete_idle_eq.
    unfold deleteBody, getRecords, fs_readFile, issue. rewrite Hq. simpl.
    rewrite Hf, Hl. simpl. unfold fs_truncate, issue. simpl. rewrite ?Hf.
    simpl. now rewrite <- app_assoc.
Qed.

(** X14: a record inserted as deleted is never seen: on a log of
    well-formed lines, after [insert(r, true)] every [find] answers what it
    answered before. *)
Theorem deleted_insert_is_invisible (record : Rec) (ls : list string)
  (query : Query) (options : option QueryOptions) (w : World) :
  Forall (fun l => cleanLine l = true) ls ->
  file w = Some (fileOfLines ls) -> faults w = [] ->
  cleanLine (entryLine (record, true)) = true ->
  snd (find fields query options
         (fst (insert fields record true (idle w))))
  = snd (find fields query options (idle w)).
Proof.
  intros Hls Hf Hq Hr.
  rewrite (insert_quiet record true w _ Hf Hq). cbn [fst].
  rewrite (find_quiet query options
             (mkWorld (Some (fileOfLines ls ++ logLine record true)%string) []
                      (calls w ++ [AppendFile (logLine record true)]))
             (fileOfLines ls ++ logLine record true)%string eq_refl eq_refl).
  rewrite (find_quiet query options w _ Hf Hq).
  assert (Hline : logLine record true = fileOfLines [entryLine (record, true)])
    by reflexivity.
  rewrite Hline, <- fileOfLines_app.
  rewrite (liveLines_fileOfLines _ Hls), liveLines_fileOfLines.
  - rewrite filter_app. simpl. now rewrite app_nil_r.
  - apply Forall_app. split; [exact Hls|]. now repeat constructor.
Qed.

Lemma insertAll_quiet (entries olds : list (Rec * bool)) (w : World) :
  file w = Some (logOf olds) -> faults w = [] ->
  exists w', insertAll fields entries (idle w) = idle w' /\
             file w' = Some (logOf (olds ++ entries)) /\ faults w' = [].
Proof.
  revert olds w. induction entries as [|e entries IH]; intros olds w Hf Hq.
  - exists w. rewrite app_nil_r. auto.
  - unfold insertAll. simpl fold_left.
    rewrite (insert_quiet (fst e) (snd e) w _ Hf Hq). cbn [fst].
    destruct (IH (olds ++ [e])
                 (mkWorld (Some (logOf olds ++ logLine (fst e) (snd e))%string) []
                          (calls w ++ [AppendFile (logLine (fst e) (snd e))])))
      as [w' (H1 & H2 & H3)].
    + simpl. rewrite logOf_app. simpl. now rewrite append_empty_r.
    + reflexivity.
    + exists w'. split; [exact H1|]. split; [|exact H3].
      now rewrite H2, <- app_assoc.
Qed.

(** X15: the log is the history of the inserts: starting from a log
    written by [insert], after any sequence of awaited inserts (live or as
    deleted) of records the JSON codec is faithful on, [find({})] returns
    exactly the records inserted live, old ones first, in the order of
    insertion. *)
Theorem inserts_then_find_all (olds entries : list (Rec * bool)) (w : World) :
  file w = Some (logOf olds) -> faults w = [] ->
  Forall (fun e => faithful (fst e)) (olds ++ entries) ->
  snd (find fields (Props []) None (insertAll fields entries (idle w)))
  = Resolved (Records (liveRecords olds ++ liveRecords entries)).
Proof.
  intros Hf Hq Hall.
  destruct (insertAll_quiet entries olds w Hf Hq) as [w' (-> & Hf' & Hq')].
  rewrite (find_quiet (Props []) None w' _ Hf' Hq').
  rewrite (liveLines_logOf _ Hall).
  rewrite (parse_stringified _ (liveRecords_faithful _ Hall)).
  rewrite filterM_total.
  - simpl. unfold liveRecords. rewrite filter_app, map_app.
    f_equal. f_equal.
    generalize (map fst (filter (fun e => negb (snd e)) olds)
                ++ map fst (filter (fun e => negb (snd e)) entries)).
    induction l as [|r l IHl]; simpl; congruence.
  - apply Forall_forall. intros r _. now exists true.
Qed.

End LogFacts.

Lemma filterM_all {A} (l : list A) : filterM (fun _ => Ok true) l = Ok l.
Proof. induction l as [|a l IH]; simpl; [reflexivity|now rewrite IH]. Qed.

Section DeleteFacts.
Context `{RT : JsRuntime}.
Variable fields : list string.

(** X16: [delete(Q)] keeps the others: when the read yields at most
    [maxPending] records, which the JSON codec is faithful on, and no
    storage call fails, [delete(Q)] resolves, and a following [find(Q2)],
    with any options, answers as it would on the records that [Q] does not
    match, in their order; so [find({})] returns exactly those records. *)
Theorem delete_keeps_the_others (query query2 : Query)
  (options : option QueryOptions) (w w1 : World) (records : list Rec) :
  getRecords w = (w1, Resolved records) -> faults w = [] ->
  (List.length records <= maxPending)%nat ->
  Forall faithful records ->
  Forall (fun r => exists b, matchesQuery fields r query = Ok b) records ->
  exists s,
    delete fields query (idle w) = (s, Resolved Done) /\
    snd (find fields query2 options s)
    = match filterM (fun x => matchesQuery fields x query2)
                    (filter (fun r => negb (isTrue (matchesQuery fields r query)))
                            records) with
      | Ok found => Resolved (Records (shape options found))
      | Throw e => Rejected e
      end /\
    snd (find fields (Props []) None s)
    = Resolved
        (Records (filter (fun r => negb (isTrue (matchesQuery fields r query)))
                         records)).
Proof.
  intros Hg Hq Hlen Hfaith Hall.
  destruct (delete_state fields query w w1 records Hg Hq Hall)
    as [w2 (Hdel & Hf2 & Hq2 & _)].
  rewrite (firstn_all2 records Hlen) in Hdel.
  eexists. split; [exact Hdel|].
  split; [now apply find_after_reinserts|].
  rewrite (find_after_reinserts fields query (Props []) None w2 records
             Hf2 Hq2 Hlen Hfaith).
  simpl.
  change (fun x : Rec => Ok (matchesPropertyQuery x []))
    with (fun _ : Rec => @Ok bool true).
  now rewrite filterM_all.
Qed.

(** X17: when the promise of [delete] resolves nothing has reached the
    file: it is empty; the read and the truncation are done, the
    [appendFile] of the first record has been called and has not completed,
    and the other records (at most [maxPending] were read) are only in
    memory, each in an [insert] waiting for the lock. *)
Theorem delete_resolves_on_empty_file (query : Query) (w w1 : World)
  (first : Rec) (others : list Rec) :
  getRecords w = (w1, Resolved (first :: others)) -> faults w = [] ->
  (List.length (first :: others) <= maxPending)%nat ->
  Forall (fun r => exists b, matchesQuery fields r query = Ok b)
         (first :: others) ->
  exists s,
    delete fields query (idle w) = (s, Resolved Done) /\
    file (world s) = Some EmptyString /\
    calls (world s)
    = calls w
      ++ [ReadFile; Truncate;
          AppendFile (logLine first (isTrue (matchesQuery fields first query)))] /\
    queue s
    = TAppending (logLine first (isTrue (matchesQuery fields first query)))
      :: map (fun r => TInsert r (isTrue (matchesQuery fields r query))) others.
Proof.
  intros Hg Hq Hlen Hall.
  destruct (delete_state fields query w w1 _ Hg Hq Hall)
    as [w2 (Hdel & Hf2 & _ & Hc2)].
  rewrite (firstn_all2 _ Hlen) in Hdel.
  eexists. split; [exact Hdel|].
  change (verdicts fields query (first :: others))
    with ((first, isTrue (matchesQuery fields first query))
          :: verdicts fields query others).
  rewrite handOver_reinserts. cbn [world queue recordCall file calls fst snd].
  split; [exact Hf2|]. split.
  - rewrite Hc2, <- app_assoc. reflexivity.
  - unfold verdicts. now rewrite map_map.
Qed.

(** X18: [delete] rewrites the log from the live records only: on a log
    written by [insert] with at most [maxPending] live records, once the
    re-appends have run the file holds one line per record that was live,
    and the lines that were tombstones before are gone from the file. *)
Theorem delete_erases_old_tombstones (query : Query)
  (entries : list (Rec * bool)) (w : World) :
  file w = Some (logOf entries) -> faults w = [] ->
  (List.length (liveRecords entries) <= maxPending)%nat ->
  Forall (fun e => faithful (fst e)) entries ->
  Forall (fun r => exists b, matchesQuery fields r query = Ok b)
         (liveRecords entries) ->
  exists s,
    delete fields query (idle w) = (s, Resolved Done) /\
    file (world (settle fields (List.length (liveRecords entries)) s))
    = Some (logOf (map (fun r => (r, isTrue (matchesQuery fields r query)))
                       (liveRecords entries))).
Proof.
  intros Hf Hq Hlen Hfaith Hall.
  pose proof (getRecords_logOf entries w Hfaith Hf Hq) as Hg.
  destruct (delete_state fields query w _ _ Hg Hq Hall)
    as [w2 (Hdel & Hf2 & Hq2 & _)].
  rewrite (firstn_all2 _ Hlen) in Hdel.
  eexists. split; [exact Hdel|].
  fold (verdicts fields query (liveRecords entries)).
  rewrite <- (verdicts_length fields query (liveRecords entries)).
  cbn [fst]. rewrite settle_reinserts. cbn [world].
  now destruct (appendEntries_quiet (verdicts fields query (liveRecords entries))
                  _ _ Hq2 Hf2) as [-> _].
Qed.

(** X26: within the bound of the lock [delete(Q)] rewrites the log as
    announced: when the read yields at most [maxPending] records, [delete]
    resolves and, its queued inserts done, the calls made are the read, the
    truncation and one [appendFile] per record read, in the order read, of
    the line [D] + JSON + line feed for a record [Q] matches and [E] + JSON
    + line feed for any other; with no storage failure the file holds
    exactly these lines. *)
Theorem delete_rewrites_within_bound (query : Query) (w w1 : World)
  (records : list Rec) :
  getRecords w = (w1, Resolved records) ->
  (List.length records <= maxPending)%nat ->
  Forall (fun r => exists b, matchesQuery fields r query = Ok b) records ->
  let line r :=
    String (match matchesQuery fields r query with
            | Ok true => "D"%char
            | _ => "E"%char
            end)
           (JSON_stringify r ++ String Str.newline EmptyString)%string in
  exists s,
    delete fields query (idle w) = (s, Resolved Done) /\
    let s' := settle fields (List.length records) s in
    queue s' = [] /\ stuck s' = false /\
    calls (world s')
    = calls w ++ [ReadFile; Truncate]
      ++ map (fun r => AppendFile (line r)) records /\
    (faults w = [] ->
     file (world s')
     = Some (fold_right (fun r rest => (line r ++ rest)%string)
                        EmptyString records)).
Proof.
  intros Hg Hlen Hall line.
  assert (Hline : forall r,
            logLine r (isTrue (matchesQuery fields r query)) = line r).
  { intros r. unfold line, logLine, isTrue.
    now destruct (matchesQuery fields r query) as [[|]|e]. }
  pose proof (delete_resolved fields query w w1 records Hg Hall) as Hdel.
  rewrite (firstn_all2 records Hlen) in Hdel.
  eexists. split; [exact Hdel|]. cbv zeta. cbn [fst].
  rewrite <- (verdicts_length fields query records), settle_reinserts.
  cbn [queue stuck world].
  destruct (getRecords_resolved_file _ _ _ Hg) as (Hc & Hf & [data Hd] & Hq1).
  split; [reflexivity|]. split; [reflexivity|]. split.
  - assert (Hm : map (fun e => AppendFile (logLine (fst e) (snd e)))
                     (verdicts fields query records)
                 = map (fun r => AppendFile (line r)) records).
    { unfold verdicts. rewrite map_map. apply map_ext_in_list.
      intros r _. cbn [fst snd]. now rewrite Hline. }
    rewrite appendEntries_calls, fs_truncate_calls, Hc, Hm, <- !app_assoc.
    reflexivity.
  - intros Hq. rewrite Hd in Hf.
    destruct (fs_truncate_quiet w1 data (Hq1 Hq) Hf) as [Hf2 Hq2].
    destruct (appendEntries_quiet (verdicts fields query records) _ _ Hq2 Hf2)
      as [-> _].
    f_equal. cbn [append]. clear - Hline. unfold verdicts.
    induction records as [|r records IH]; [reflexivity|].
    cbn [map logOf fst snd fold_right]. now rewrite IH, Hline.
Qed.

End DeleteFacts.

(** ** The result shaper: further behaviour *)

Lemma arraySort_fixed {A} (comparefn : A -> A -> Z) (l : list A) :
  StronglySorted (notAfter comparefn) l -> arraySort comparefn l = l.
Proof.
  induction 1 as [|x l Hs IH Hx]; [reflexivity|].
  simpl. rewrite IH. destruct l as [|y l]; [reflexivity|].
  simpl. inversion Hx as [|? ? Hxy _]; subst. unfold notAfter in Hxy.
  destruct (0 <? comparefn x y)%Z eqn:E; [|reflexivity].
  apply Z.ltb_lt in E. lia.
Qed.

Lemma StronglySorted_always {A} (R : A -> A -> Prop) (l : list A) :
  (forall a b, R a b) -> StronglySorted R l.
Proof.
  intros H. induction l as [|x l IH]; constructor; [exact IH|].
  apply Forall_forall. auto.
Qed.

Section ShaperFacts.
Context `{RT : JsRuntime}.

(** X19: [sort] leaves alone what is in order: with a sort option without
    keys it returns the records as they are, and so it does, whatever the
    keys, when the comparator puts no record after a later one. *)
Theorem sort_keeps_ordered_input (records : list Rec) (sortOption : SortOption) :
  sort records [] = records /\
  (StronglySorted (fun a b => (compareRecords sortOption a b <= 0)%Z) records ->
   sort records sortOption = records).
Proof.
  split.
  - unfold sort. apply arraySort_fixed. apply StronglySorted_always.
    intros a b. unfold notAfter. simpl. lia.
  - intros H. unfold sort. now apply arraySort_fixed.
Qed.

(** X20: sorting twice is sorting once: on records that hold, under every
    key of the sort option, values of one kind (finite numbers, or strings),
    [sort] applied to its own result changes nothing. *)
Theorem sort_idempotent (records : list Rec) (sortOption : SortOption) :
  (forall a b, In a records -> In b records ->
               comparable sortOption a b = true) ->
  sort (sort records sortOption) sortOption = sort records sortOption.
Proof.
  intros Hc. unfold sort. apply arraySort_fixed.
  apply (arraySort_sorted _ _ (fun a => In a records)).
  - intros a b Ha Hb H. rewrite (compareRecords_opp _ a b); auto. lia.
  - intros a b c Ha Hb Hc'. apply compareRecords_trans; auto.
  - now apply Forall_forall.
Qed.

End ShaperFacts.

Lemma get_project (record : Rec) (projection : ProjectionOption) (k : string) :
  get (project record projection) k
  = if existsb (String.eqb k) projection then get record k else VUndefined.
Proof.
  induction projection as [|k0 projection IH]; [reflexivity|].
  simpl. rewrite (String.eqb_sym k k0).
  destruct (String.eqb k0 k) eqn:E; simpl; [|exact IH].
  apply String.eqb_eq in E. now subst.
Qed.

(** X21: [project] returns an object with exactly the keys of the
    projection, in their order, each holding what the record holds under it;
    a key the record lacks is there too, holding [undefined]; every other
    field is gone; and projecting the result again changes nothing. *)
Theorem project_fields (record : Rec) (projection : ProjectionOption) :
  map fst (project record projection) = projection /\
  (forall k, In k projection ->
             get (project record projection) k = get record k) /\
  (forall k, In k projection -> hasKey record k = false ->
             In (k, VUndefined) (project record projection)) /\
  (forall k, ~ In k projection ->
             get (project record projection) k = VUndefined) /\
  project (project record projection) projection = project record projection.
Proof.
  assert (Hin : forall k, In k projection ->
                  get (project record projection) k = get record k).
  { intros k Hk. rewrite (get_project record projection k).
    assert (E : existsb (String.eqb k) projection = true).
    { apply existsb_exists. exists k. split; [exact Hk|apply String.eqb_refl]. }
    now rewrite E. }
  split; [|split; [exact Hin|split; [|split]]].
  - unfold project. rewrite map_map. simpl. apply map_id.
  - intros k Hk Hmiss. unfold project. apply in_map_iff. exists k.
    split; [|exact Hk]. now rewrite (get_missing record k Hmiss).
  - intros k Hk. rewrite (get_project record projection k).
    destruct (existsb (String.eqb k) projection) eqn:E; [|reflexivity].
    apply existsb_exists in E as [k' [Hk' E]]. apply String.eqb_eq in E.
    subst. contradiction.
  - unfold project at 1 3. apply map_ext_in_list. intros k Hk.
    now rewrite (Hin k Hk).
Qed.

(** ** The further properties at work *)

Lemma missing_file_witness :
  fst (insert (RT := miniRuntime) [] ann false (idle (mkWorld None [] [])))
  = idle (mkWorld (Some (logLine (RT := miniRuntime) ann false)) []
                  [AppendFile (logLine (RT := miniRuntime) ann false)]).
Proof.
  destruct (missing_file (RT := miniRuntime) [] (Props []) None ann false
              (mkWorld None [] []) eq_refl eq_refl) as (_ & _ & H).
  now rewrite H.
Defined.

Lemma blank_log_witness :
  snd (find (RT := miniRuntime) [] (Props []) None
         (idle (quietWorld (String Str.newline " "))))
  = Resolved (Records []).
Proof.
  apply (blank_log (RT := miniRuntime) [] (Props []) None
           (quietWorld (String Str.newline " ")) (String Str.newline " "));
    reflexivity.
Defined.

Lemma deleted_insert_is_invisible_witness :
  snd (find (RT := miniRuntime) [] (Props []) None
         (fst (insert (RT := miniRuntime) [] ann true (idle annBobWorld))))
  = snd (find (RT := miniRuntime) [] (Props []) None (idle annBobWorld)).
Proof.
  apply (deleted_insert_is_invisible (RT := miniRuntime) [] ann
           (map (entryLine (RT := miniRuntime)) [(ann, false); (bob, false)]));
    try reflexivity.
  repeat constructor.
Defined.

Lemma inserts_then_find_all_witness :
  snd (find (RT := miniRuntime) [] (Props []) None
         (insertAll (RT := miniRuntime) [] [(bob, true); (ann, false)]
                    (idle annBobWorld)))
  = Resolved (Records [ann; bob; ann]).
Proof.
  apply (inserts_then_find_all (RT := miniRuntime) []
           [(ann, false); (bob, false)] [(bob, true); (ann, false)]
           annBobWorld eq_refl eq_refl).
  repeat constructor.
Defined.

Lemma delete_keeps_the_others_witness :
  exists s,
    delete (RT := miniRuntime) [] isBob (idle annBobWorld) = (s, Resolved Done) /\
    snd (find (RT := miniRuntime) [] (Props []) None s)
    = Resolved (Records [ann]).
Proof.
  destruct (delete_keeps_the_others (RT := miniRuntime) [] isBob (Props []) None
              annBobWorld (mkWorld (file annBobWorld) [] [ReadFile]) [ann; bob]
              eq_refl eq_refl (fits 2 eq_refl) ann_bob_faithful)
    as [s (H1 & _ & H3)].
  - repeat constructor; eexists; reflexivity.
  - exists s. split; [exact H1|exact H3].
Defined.

Lemma delete_resolves_on_empty_file_witness :
  exists s,
    delete (RT := miniRuntime) [] isBob (idle annBobWorld) = (s, Resolved Done) /\
    file (world s) = Some EmptyString /\
    queue s = [TAppending (logLine (RT := miniRuntime) ann false);
               TInsert bob true].
Proof.
  destruct (delete_resolves_on_empty_file (RT := miniRuntime) [] isBob
              annBobWorld (mkWorld (file annBobWorld) [] [ReadFile]) ann [bob]
              eq_refl eq_refl (fits 2 eq_refl))
    as [s (H1 & H2 & _ & H4)].
  - repeat constructor; eexists; reflexivity.
  - exists s. split; [exact H1|]. split; [exact H2|exact H4].
Defined.

Lemma delete_erases_old_tombstones_witness :
  let w := quietWorld (logOf (RT := miniRuntime) [(bob, true); (ann, false)]) in
  exists s,
    delete (RT := miniRuntime) [] isBob (idle w) = (s, Resolved Done) /\
    file (world (settle (RT := miniRuntime) [] 1 s))
    = Some (logOf (RT := miniRuntime) [(ann, false)]).
Proof.
  intro w.
  destruct (delete_erases_old_tombstones (RT := miniRuntime) [] isBob
              [(bob, true); (ann, false)] w eq_refl eq_refl
              (fits 1 eq_refl))
    as [s (H1 & H2)].
  - repeat constructor.
  - repeat constructor; eexists; reflexivity.
  - exists s. split; [exact H1|exact H2].
Defined.

Lemma delete_rewrites_within_bound_witness :
  exists s,
    delete (RT := miniRuntime) [] isBob (idle annBobWorld) = (s, Resolved Done) /\
    file (world (settle (RT := miniRuntime) [] 2 s))
    = Some (String "E" (Mini.stringify ann ++ String Str.newline
              (String "D" (Mini.stringify bob ++ String Str.newline EmptyString))))%string.
Proof.
  destruct (delete_rewrites_within_bound (RT := miniRuntime) [] isBob annBobWorld
              (mkWorld (file annBobWorld) [] [ReadFile]) [ann; bob] eq_refl
              (fits 2 eq_refl))
    as [s (H1 & _ & _ & _ & H5)].
  - repeat constructor; eexists; reflexivity.
  - exists s. split; [exact H1|]. exact (H5 eq_refl).
Defined.

Lemma sort_keeps_ordered_input_witness :
  sort (RT := miniRuntime) [bob; ann] [("age", Asc)] = [bob; ann].
Proof.
  apply (proj2 (sort_keeps_ordered_input (RT := miniRuntime) [bob; ann]
                  [("age", Asc)])).
  repeat constructor; simpl; lia.
Defined.

Lemma sort_idempotent_witness :
  sort (RT := miniRuntime) (sort (RT := miniRuntime) [ann; bob] [("age", Asc)])
       [("age", Asc)]
  = sort (RT := miniRuntime) [ann; bob] [("age", Asc)].
Proof.
  apply (sort_idempotent (RT := miniRuntime) [ann; bob] [("age", Asc)]).
  intros a b [<-|[<-|[]]] [<-|[<-|[]]]; reflexivity.
Defined.

Lemma project_fields_witness :
  get (project ann ["age"; "city"]) "age" = VNum (Finite 30) /\
  In ("city", VUndefined) (project ann ["age"; "city"]).
Proof.
  destruct (project_fields ann ["age"; "city"]) as (_ & Hget & Hmiss & _).
  split.
  - rewrite (Hget "age"); [reflexivity|now left].
  - apply Hmiss; [right; now left|reflexivity].
Defined.

(** ** Reading, failures and the lock *)

Section ReadFacts.
Context `{RT : JsRuntime}.
Variable fields : list string.

(** X22: on a log of well-formed lines, [getRecords] decodes exactly the
    lines whose first character is [E], in their order, each without that
    character; a line that starts with [D] or with anything else is skipped
    without being decoded. *)
Theorem getRecords_reads_live_lines (ls : list string) (w : World) :
  Forall (fun l => cleanLine l = true) ls ->
  file w = Some (fileOfLines ls) -> faults w = [] ->
  getRecords w
  = (mkWorld (file w) [] (calls w ++ [ReadFile]),
     match mapM parseLine
                (map Str.substr1 (filter (Str.startsWith liveTag) ls)) with
     | Ok records => Resolved records
     | Throw e => Uncaught e
     end).
Proof.
  intros Hls Hf Hq. unfold getRecords, fs_readFile, issue. rewrite Hq. simpl.
  rewrite Hf, (liveLines_fileOfLines ls Hls).
  now destruct (mapM parseLine _).
Qed.

(** X23: when the read of the file fails, [find] and [delete] are rejected
    with the error of the read; [delete] has then neither truncated the file
    nor queued any append, and the file is as it was. *)
Theorem read_failure_changes_nothing (query : Query)
  (options : option QueryOptions) (w w1 : World) (code : Errno) :
  fs_readFile w = (w1, inl code) ->
  find fields query options (idle w) = (idle w1, Rejected (IOError code)) /\
  delete fields query (idle w) = (idle w1, Rejected (IOError code)) /\
  file w1 = file w /\ calls w1 = calls w ++ [ReadFile].
Proof.
  intros H.
  assert (Hg : getRecords w = (w1, Rejected (IOError code)))
    by (unfold getRecords; now rewrite H).
  pose proof (fs_readFile_file w) as Hf.
  pose proof (fs_readFile_calls w) as Hc. rewrite H in Hf, Hc.
  repeat split; auto.
  - rewrite find_idle_eq.
    unfold findBody. now rewrite Hg.
  - rewrite delete_idle_eq.
    unfold deleteBody. now rewrite Hg.
Qed.


(** X25: a failed truncation goes unnoticed: when the read of [delete]
    succeeds on at most [maxPending] records and the truncation fails,
    [delete] still resolves, and the re-appends land after the old contents,
    all of which are kept. *)
Theorem failed_truncate_duplicates (query : Query) (w w1 : World)
  (data : string) (records : list Rec) :
  getRecords w = (w1, Resolved records) ->
  file w = Some data -> faults w = [false; true] ->
  (List.length records <= maxPending)%nat ->
  Forall (fun r => exists b, matchesQuery fields r query = Ok b) records ->
  exists s,
    delete fields query (idle w) = (s, Resolved Done) /\
    file (world (settle fields (List.length records) s))
    = Some (data ++ logOf (map (fun r => (r, isTrue (matchesQuery fields r query)))
                               records))%string.
Proof.
  intros Hg Hf Hq Hlen Hall.
  pose proof (delete_resolved fields query w w1 records Hg Hall) as Hdel.
  rewrite (firstn_all2 records Hlen) in Hdel.
  eexists. split; [exact Hdel|].
  fold (verdicts fields query records).
  rewrite <- (verdicts_length fields query records).
  cbn [fst]. rewrite settle_reinserts. cbn [world].
  pose proof (getRecords_world w) as Hw. rewrite Hg in Hw. simpl in Hw.
  assert (Hw1 : fst (fs_truncate w1)
                = mkWorld (Some data) [] (calls w ++ [ReadFile] ++ [Truncate])).
  { rewrite Hw. unfold fs_readFile, fs_truncate, issue. rewrite Hq. simpl.
    rewrite Hf. simpl. now rewrite <- app_assoc. }
  rewrite Hw1.
  now destruct (appendEntries_quiet (verdicts fields query records)
                  (mkWorld (Some data) [] (calls w ++ [ReadFile] ++ [Truncate]))
                  data eq_refl eq_refl) as [-> _].
Qed.

End ReadFacts.

Lemma getRecords_reads_live_lines_witness :
  let ls := [entryLine (RT := miniRuntime) (ann, false); "X{0}";
             entryLine (RT := miniRuntime) (bob, true)] in
  snd (getRecords (RT := miniRuntime) (quietWorld (fileOfLines ls)))
  = Resolved [ann].
Proof.
  intro ls.
  rewrite (getRecords_reads_live_lines (RT := miniRuntime) ls
             (quietWorld (fileOfLines ls))); try reflexivity.
  repeat constructor.
Defined.

Lemma read_failure_changes_nothing_witness :
  let w := mkWorld (file annBobWorld) [true] [] in
  delete (RT := miniRuntime) [] isBob (idle w)
  = (idle (mkWorld (file annBobWorld) [] [ReadFile]), Rejected (IOError EIO)).
Proof.
  intro w.
  apply (proj1 (proj2 (read_failure_changes_nothing (RT := miniRuntime) []
                         isBob None w
                         (mkWorld (file annBobWorld) [] [ReadFile]) EIO
                         eq_refl))).
Defined.


Lemma failed_truncate_duplicates_witness :
  let w := mkWorld (file annBobWorld) [false; true] [] in
  exists s,
    delete (RT := miniRuntime) [] isBob (idle w) = (s, Resolved Done) /\
    file (world (settle (RT := miniRuntime) [] 2 s))
    = Some (logOf (RT := miniRuntime)
              [(ann, false); (bob, false); (ann, false); (bob, true)]).
Proof.
  intro w.
  destruct (failed_truncate_duplicates (RT := miniRuntime) [] isBob w
              (mkWorld (file annBobWorld) [true] [ReadFile])
              (logOf (RT := miniRuntime) [(ann, false); (bob, false)])
              [ann; bob] eq_refl eq_refl eq_refl
              (fits 2 eq_refl))
    as [s (H1 & H2)].
  - repeat constructor; eexists; reflexivity.
  - exists s. split; [exact H1|exact H2].
Defined.

(** ** The bound of the lock *)

Lemma liveRecords_repeat (r : Rec) (n : nat) (l : list (Rec * bool)) :
  liveRecords (repeat (r, false) n ++ l) = repeat r n ++ liveRecords l.
Proof.
  unfold liveRecords. induction n as [|n IH]; [reflexivity|].
  simpl. now rewrite IH.
Qed.

Lemma filter_everything {A} (p : A -> bool) (l : list A) :
  (forall a, In a l -> p a = true) -> filter p l = l.
Proof.
  induction l as [|a l IH]; intros H; [reflexivity|].
  simpl. rewrite (H a (or_introl eq_refl)), IH; [reflexivity|].
  intros b Hb. apply H. now right.
Qed.

Lemma crowd_faithful :
  Forall (fun e => faithful (RT := miniRuntime) (fst e)) crowd.
Proof.
  unfold crowd. apply Forall_app. split.
  - apply Forall_forall. intros e He. apply repeat_spec in He. subst e.
    repeat constructor.
  - repeat constructor.
Qed.

Lemma crowd_live : liveRecords crowd = repeat blank maxPending ++ [ann].
Proof. unfold crowd. now rewrite liveRecords_repeat. Qed.

Lemma crowd_not_bob (r : Rec) :
  In r (repeat blank maxPending ++ [ann]) ->
  matchesQuery (RT := miniRuntime) [] r isBob = Ok false.
Proof.
  intros H. apply in_app_or in H as [H|[<-|[]]]; [|reflexivity].
  apply repeat_spec in H. now subst r.
Qed.

(** C2, at the failing input: on a log of 1000 live records [{}] followed
    by the live record Ann, [find({})] returns the 1001 records;
    [delete({name: {$eq: "Bob"}})], which matches none of them, resolves;
    its queued inserts done, the file holds the 1000 records [{}] only and
    nothing waits any more: Ann has not been re-appended, and [find({})]
    answers without her. *)
Theorem delete_loses_records_past_the_bound :
  let s := fst (delete (RT := miniRuntime) [] isBob (idle crowdedWorld)) in
  snd (find (RT := miniRuntime) [] (Props []) None (idle crowdedWorld))
  = Resolved (Records (repeat blank maxPending ++ [ann])) /\
  snd (delete (RT := miniRuntime) [] isBob (idle crowdedWorld)) = Resolved Done /\
  file (world (settle (RT := miniRuntime) [] maxPending s))
  = Some (logOf (RT := miniRuntime) (repeat (blank, false) maxPending)) /\
  queue (settle (RT := miniRuntime) [] maxPending s) = [] /\
  snd (find (RT := miniRuntime) [] (Props []) None s)
  = Resolved (Records (repeat blank maxPending)).
Proof.
  assert (Hall : Forall (fun r => exists b,
                           matchesQuery (RT := miniRuntime) [] r isBob = Ok b)
                        (repeat blank maxPending ++ [ann])).
  { apply Forall_forall. intros r Hr. exists false. now apply crowd_not_bob. }
  assert (Hg : getRecords (RT := miniRuntime) crowdedWorld
               = (mkWorld (file crowdedWorld) [] [ReadFile],
                  Resolved (repeat blank maxPending ++ [ann]))).
  { rewrite <- crowd_live.
    apply (getRecords_logOf (RT := miniRuntime) crowd crowdedWorld);
      [exact crowd_faithful|reflexivity|reflexivity]. }
  assert (Hkept : firstn maxPending (repeat blank maxPending ++ [ann])
                  = repeat blank maxPending).
  { rewrite firstn_app, repeat_length, Nat.sub_diag. cbn [firstn].
    rewrite app_nil_r. apply firstn_all2. now rewrite repeat_length. }
  assert (Hverdicts : verdicts (RT := miniRuntime) [] isBob (repeat blank maxPending)
                      = repeat (blank, false) maxPending).
  { unfold verdicts. now rewrite map_repeat. }
  assert (Hfaith : Forall (faithful (RT := miniRuntime)) (repeat blank maxPending)).
  { apply Forall_forall. intros r Hr. apply repeat_spec in Hr. subst r.
    repeat constructor. }
  destruct (delete_state (RT := miniRuntime) [] isBob crowdedWorld _ _
              Hg eq_refl Hall) as [w2 (Hdel & Hf2 & Hq2 & _)].
  rewrite Hkept in Hdel.
  cbv zeta. rewrite Hdel. cbn [fst snd].
  split; [|split; [reflexivity|]].
  - rewrite (find_quiet (RT := miniRuntime) [] (Props []) None crowdedWorld
               (logOf (RT := miniRuntime) crowd) eq_refl eq_refl).
    rewrite (liveLines_logOf (RT := miniRuntime) crowd crowd_faithful).
    rewrite (parse_stringified (RT := miniRuntime) _
               (liveRecords_faithful _ crowd_faithful)).
    rewrite crowd_live.
    change (fun x : Rec => matchesQuery (RT := miniRuntime) [] x (Props []))
      with (fun _ : Rec => @Ok bool true).
    now rewrite filterM_all.
  - assert (Hn : maxPending
                 = List.length (verdicts (RT := miniRuntime) [] isBob
                                  (repeat blank maxPending)))
      by now rewrite verdicts_length, repeat_length.
    rewrite Hn at 1 3. rewrite settle_reinserts. cbn [world queue].
    split; [|split; [reflexivity|]].
    + destruct (appendEntries_quiet (RT := miniRuntime)
                  (verdicts (RT := miniRuntime) [] isBob (repeat blank maxPending))
                  _ _ Hq2 Hf2) as [-> _].
      now rewrite Hverdicts.
    + assert (Hlen : (List.length (repeat blank maxPending) <= maxPending)%nat)
        by now rewrite repeat_length.
      rewrite (find_after_reinserts (RT := miniRuntime) [] isBob (Props []) None
                 w2 (repeat blank maxPending) Hf2 Hq2 Hlen Hfaith).
      rewrite filter_everything.
      * change (fun x : Rec => matchesQuery (RT := miniRuntime) [] x (Props []))
          with (fun _ : Rec => @Ok bool true).
        now rewrite filterM_all.
      * intros r Hr. rewrite (crowd_not_bob r); [reflexivity|].
        apply in_or_app. now left.
Qed.
